(** * migrate_logger.py: the logger.Fields migration helper

    A shallow embedding of [migrate_logger_fields] and of its inner function
    [replace_fields], with the properties of the transformation proved over
    it.

    Data model.  A Python [str] is a [list ascii]: one [ascii] per character,
    for the code points 0..255.  The regular expressions of the script are
    values of [regex], interpreted by a backtracking matcher [rx] that
    follows the priorities of Python's [re] (left alternative first, greedy
    repetition longest first, lazy repetition shortest first, leftmost start
    position first).  The two [while] loops are run with fuel; their outcome
    says whether the loop finished, raised or ran out of fuel. *)

From Stdlib Require Import String Ascii Bool Arith ZArith Lia List ListSet.
Import ListNotations.

(** ** Text *)

Definition str := list ascii.

(** A string literal of the script. *)
Definition lit (t : string) : str := list_ascii_of_string t.

Definition dq : ascii := "034"%char.   (* the double quote *)
Definition sq : ascii := "039"%char.   (* the single quote *)
Definition nl : ascii := "010"%char.   (* \n *)
Definition tab : ascii := "009"%char.  (* \t *)

(** [quoted t] is [t] between double quotes. *)
Definition quoted (t : str) : str := dq :: t ++ [dq].

Definition str_eq_dec : forall a b : str, {a = b} + {a <> b} :=
  list_eq_dec ascii_dec.

(** [str.isspace] for one character, which is also the class [\s]:
    U+0009..U+000D, U+001C..U+0020, U+0085 and U+00A0. *)
Definition is_space (c : ascii) : bool :=
  let n := nat_of_ascii c in
  ((9 <=? n) && (n <=? 13)) || ((28 <=? n) && (n <=? 32))
  || (n =? 133) || (n =? 160).

(** The class [\d]: the decimal digits; below U+0100 these are 0..9. *)
Definition is_digit (c : ascii) : bool :=
  let n := nat_of_ascii c in (48 <=? n) && (n <=? 57).

(** The class [\w]: alphanumeric characters and the underscore.  Below
    U+0100 the alphanumeric characters are the ASCII letters and digits, the
    ordinal indicators, the micro sign, the superscript digits, the vulgar
    fractions and the accented Latin-1 letters. *)
Definition is_word (c : ascii) : bool :=
  let n := nat_of_ascii c in
  is_digit c
  || ((65 <=? n) && (n <=? 90)) || ((97 <=? n) && (n <=? 122)) || (n =? 95)
  || (n =? 170) || (n =? 178) || (n =? 179) || (n =? 181) || (n =? 185)
  || (n =? 186) || ((188 <=? n) && (n <=? 190))
  || ((192 <=? n) && (n <=? 214)) || ((216 <=? n) && (n <=? 246))
  || (248 <=? n).

(** [s.startswith(p)] *)
Fixpoint startswith (p s : str) : bool :=
  match p, s with
  | [], _ => true
  | _ :: _, [] => false
  | a :: p', b :: s' => Ascii.eqb a b && startswith p' s'
  end.

(** [needle in hay] *)
Fixpoint contains (needle hay : str) : bool :=
  startswith needle hay ||
  match hay with
  | [] => false
  | _ :: hay' => contains needle hay'
  end.

(** [s.count(c)] for a one-character [c]. *)
Fixpoint count (c : ascii) (s : str) : Z :=
  match s with
  | [] => 0%Z
  | x :: s' => ((if Ascii.eqb x c then 1 else 0) + count c s')%Z
  end.

(** [s.split(sep)] for a one-character separator. *)
Fixpoint split (sep : ascii) (s : str) : list str :=
  match s with
  | [] => [[]]
  | c :: s' =>
      if Ascii.eqb c sep then [] :: split sep s'
      else match split sep s' with
           | l :: ls => (c :: l) :: ls
           | [] => [[c]]
           end
  end.

(** [sep.join(l)] *)
Fixpoint join (sep : str) (l : list str) : str :=
  match l with
  | [] => []
  | x :: l' =>
      match l' with
      | [] => x
      | _ :: _ => x ++ sep ++ join sep l'
      end
  end.

Fixpoint lstrip (s : str) : str :=
  match s with
  | [] => []
  | c :: s' => if is_space c then lstrip s' else s
  end.

(** [s.strip()] *)
Definition strip (s : str) : str := rev (lstrip (rev (lstrip s))).

(** [l[-n:]] *)
Definition last_n {A : Type} (n : nat) (l : list A) : list A :=
  skipn (length l - n) l.

(** ** Regular expressions

    The constructs the script's patterns use.  Repetition is only ever
    applied to a single character class, so [Star] takes the class. *)

Inductive regex : Type :=
| Lit (w : str)                        (* literal text *)
| Cls (p : ascii -> bool)              (* one character of a class *)
| Seq (r1 r2 : regex)
| Alt (r1 r2 : regex)
| Star (greedy : bool) (p : ascii -> bool)   (* p* and p*? *)
| Group (n : nat) (r : regex)          (* capturing group number n *)
| Ahead (r : regex)                    (* (?=r) *)
| Bol                                  (* ^ *)
| Eol.                                 (* $ *)

Declare Scope regex_scope.
Delimit Scope regex_scope with re.
Notation "a ';;' b" := (Seq a b) (at level 61, right associativity) : regex_scope.
Notation "a '<|>' b" := (Alt a b) (at level 62, right associativity) : regex_scope.

(** p+ and p+? *)
Definition Plus (greedy : bool) (p : ascii -> bool) : regex :=
  Seq (Cls p) (Star greedy p).

(** [^c1c2...] *)
Definition none_of (cs : list ascii) (c : ascii) : bool :=
  negb (existsb (Ascii.eqb c) cs).

(** [.] without DOTALL, and with it. *)
Definition dot : ascii -> bool := none_of [nl].
Definition dot_all : ascii -> bool := fun _ => true.

(** The text of the groups matched so far, latest first. *)
Definition caps := list (nat * str).

Fixpoint lookup_group (n : nat) (g : caps) : option str :=
  match g with
  | [] => None
  | (k, t) :: g' => if Nat.eqb k n then Some t else lookup_group n g'
  end.

(** Where a match attempt stands: the offset in the subject, the text still
    ahead and the groups. *)
Definition cursor : Type := nat * str * caps.

(** The matcher, in continuation-passing style: [rx r pos s g k] matches [r]
    at offset [pos], where [s] is the text ahead, and hands every way of
    matching to [k] in priority order until [k] accepts one. *)
Fixpoint rx (r : regex) (pos : nat) (s : str) (g : caps)
  (k : nat -> str -> caps -> option cursor) {struct r} : option cursor :=
  match r with
  | Lit w =>
      if startswith w s then k (pos + length w) (skipn (length w) s) g
      else None
  | Cls p =>
      match s with
      | c :: s' => if p c then k (S pos) s' g else None
      | [] => None
      end
  | Seq r1 r2 => rx r1 pos s g (fun pos' s' g' => rx r2 pos' s' g' k)
  | Alt r1 r2 =>
      match rx r1 pos s g k with
      | Some x => Some x
      | None => rx r2 pos s g k
      end
  | Star true p =>
      (fix more (pos : nat) (s : str) {struct s} : option cursor :=
         match s with
         | c :: s' =>
             if p c then
               match more (S pos) s' with
               | Some x => Some x
               | None => k pos s g
               end
             else k pos s g
         | [] => k pos s g
         end) pos s
  | Star false p =>
      (fix more (pos : nat) (s : str) {struct s} : option cursor :=
         match k pos s g with
         | Some x => Some x
         | None =>
             match s with
             | c :: s' => if p c then more (S pos) s' else None
             | [] => None
             end
         end) pos s
  | Group n r1 =>
      rx r1 pos s g
        (fun pos' s' g' => k pos' s' ((n, firstn (pos' - pos) s) :: g'))
  | Ahead r1 =>
      match rx r1 pos s g (fun pos' s' g' => Some (pos', s', g')) with
      | Some (_, _, g') => k pos s g'
      | None => None
      end
  | Bol => if Nat.eqb pos 0 then k pos s g else None
  | Eol =>
      match s with
      | [] => k pos s g
      | c :: [] => if Ascii.eqb c nl then k pos s g else None
      | _ :: _ :: _ => None
      end
  end.

(** A match object: where the match starts and ends, and its groups. *)
Record rmatch : Type := mkMatch {
  m_start : nat;
  m_end : nat;
  m_rest : str;        (* the subject after the match *)
  m_groups : caps
}.

(** [m.group(n)], for a group that took part in the match (every group of
    the script's patterns does). *)
Definition group (m : rmatch) (n : nat) : str :=
  match lookup_group n (m_groups m) with
  | Some t => t
  | None => []
  end.

Definition accept : nat -> str -> caps -> option cursor :=
  fun pos s g => Some (pos, s, g).

Definition match_at (r : regex) (pos : nat) (s : str) : option rmatch :=
  match rx r pos s [] accept with
  | Some (e, s', g) => Some (mkMatch pos e s' g)
  | None => None
  end.

(** The truth value of a match result, as in [if m:]. *)
Definition matched (o : option rmatch) : bool :=
  match o with
  | Some _ => true
  | None => false
  end.

(** [re.match(r, s)] *)
Definition re_match (r : regex) (s : str) : option rmatch := match_at r 0 s.

(** The leftmost match starting at offset [pos] or later, [s] being the
    text from [pos] on. *)
Fixpoint search_from (r : regex) (pos : nat) (s : str) : option rmatch :=
  match match_at r pos s with
  | Some m => Some m
  | None =>
      match s with
      | [] => None
      | _ :: s' => search_from r (S pos) s'
      end
  end.

(** [re.search(r, s)] *)
Definition re_search (r : regex) (s : str) : option rmatch := search_from r 0 s.

(** The end of a pattern that must not match the empty text at offset
    [start]. *)
Definition accept_after (start : nat) : nat -> str -> caps -> option cursor :=
  fun pos s g => if Nat.eqb pos start then None else Some (pos, s, g).

(** The leftmost match from offset [pos] on that is not the empty match at
    [pos] itself: the search that follows an empty match. *)
Definition search_advancing (r : regex) (pos : nat) (s : str) : option rmatch :=
  match rx r pos s [] (accept_after pos) with
  | Some (e, s', g) => Some (mkMatch pos e s' g)
  | None =>
      match s with
      | [] => None
      | _ :: s' => search_from r (S pos) s'
      end
  end.

(** [re.finditer(r, s)]: the successive leftmost matches, each searched from
    the end of the one before; right after an empty match the search must
    advance. *)
Fixpoint finditer_from (fuel : nat) (r : regex) (must_advance : bool)
  (pos : nat) (s : str) : list rmatch :=
  match fuel with
  | O => []
  | S fuel' =>
      match (if must_advance then search_advancing r pos s
             else search_from r pos s) with
      | None => []
      | Some m =>
          m :: finditer_from fuel' r (Nat.eqb (m_end m) (m_start m))
                 (m_end m) (m_rest m)
      end
  end.

Definition finditer (r : regex) (s : str) : list rmatch :=
  finditer_from (2 * length s + 2) r false 0 s.

(** [re.findall(r, s)] for a pattern with two groups: the pairs of their
    texts. *)
Definition findall2 (r : regex) (s : str) : list (str * str) :=
  map (fun m => (group m 1, group m 2)) (finditer r s).

(** ** Outcomes of the loops *)

Inductive exn : Type := IndexError.

Inductive outcome (A : Type) : Type :=
| Done (a : A)
| Raised (e : exn)
| OutOfFuel.

Arguments Done {A} a.
Arguments Raised {A} e.
Arguments OutOfFuel {A}.

Definition bind {A B : Type} (c : outcome A) (f : A -> outcome B) : outcome B :=
  match c with
  | Done a => f a
  | Raised e => Raised e
  | OutOfFuel => OutOfFuel
  end.

Notation "'do' x <- c1 ; c2" := (bind c1 (fun x => c2))
  (at level 10, x pattern, c1 at level 100, c2 at level 200).

(** [lines[n]] for [n >= 0]. *)
Definition index (lines : list str) (n : nat) : outcome str :=
  match nth_error lines n with
  | Some l => Done l
  | None => Raised IndexError
  end.

(** ** replace_fields *)

Definition ws : regex := Star true is_space.   (* \s* *)

(** logger\.Fields\{\s*Component:\s*\x22([^\x22]+)\x22,\s*Operation:\s*\x22([^\x22]+)\x22(.*?)\}
    (the double quote is written \x22 here) *)
Definition pattern : regex :=
  (Lit (lit "logger.Fields{") ;; ws ;; Lit (lit "Component:") ;; ws ;;
   Lit [dq] ;; Group 1 (Plus true (none_of [dq])) ;; Lit [dq] ;; Lit (lit ",") ;;
   ws ;; Lit (lit "Operation:") ;; ws ;;
   Lit [dq] ;; Group 2 (Plus true (none_of [dq])) ;; Lit [dq] ;;
   Group 3 (Star false dot) ;; Lit (lit "}"))%re.

(** Namespace:\s*([^,\n]+) and its two siblings *)
Definition attribute_re (name : string) : regex :=
  (Lit (lit name) ;; ws ;; Group 1 (Plus true (none_of [","%char; nl])))%re.

Definition namespace_re : regex := attribute_re "Namespace:".
Definition source_re : regex := attribute_re "Source:".
Definition error_re : regex := attribute_re "Error:".

(** Additional:\s*map\[string\]interface\{\}(.*?)(?=\s*\)|\s*Source:|\s*Error:|\s*Namespace:)
    with re.DOTALL *)
Definition additional_re : regex :=
  (Lit (lit "Additional:") ;; ws ;; Lit (lit "map[string]interface{}") ;;
   Group 1 (Star false dot_all) ;;
   Ahead ((ws ;; Lit (lit ")")) <|> (ws ;; Lit (lit "Source:")) <|>
          (ws ;; Lit (lit "Error:")) <|> (ws ;; Lit (lit "Namespace:"))))%re.

(** \x22([^\x22]+)\x22:\s*([^,\n\}]+) *)
Definition kv_re : regex :=
  (Lit [dq] ;; Group 1 (Plus true (none_of [dq])) ;; Lit [dq] ;; Lit (lit ":") ;;
   ws ;; Group 2 (Plus true (none_of [","%char; nl; "}"%char])))%re.

(** ^\d+$ *)
Definition int_re : regex := (Bol ;; Plus true is_digit ;; Eol)%re.

(** ^\d+\.\d+ *)
Definition float_re : regex :=
  (Bol ;; Plus true is_digit ;; Lit (lit ".") ;; Plus true is_digit)%re.

(** f'sdklog.String("{key}", {value})' and the like *)
Definition sdklog_call (helper : string) (key value : str) : str :=
  lit "sdklog." ++ lit helper ++ lit "(" ++ quoted key ++ lit ", " ++ value
  ++ lit ")".

Definition sdklog_error (value : str) : str :=
  lit "sdklog.Error(" ++ value ++ lit ")".

Definition sdklog_operation (operation : str) : str :=
  lit "sdklog.Operation(" ++ quoted operation ++ lit ")".

(** The body of the loop over [kv_pairs]: the field of one pair. *)
Definition kv_field (kv : str * str) : str :=
  let key := fst kv in
  let value := strip (snd kv) in
  if startswith [dq] value || startswith [sq] value then
    sdklog_call "String" key value
  else if matched (re_match int_re value) then sdklog_call "Int" key value
  else if matched (re_match float_re value) then sdklog_call "Float64" key value
  else sdklog_call "String" key value.

(** The list [all_fields] that [replace_fields] builds from a match of
    [pattern]. *)
Definition all_fields (m : rmatch) : list str :=
  let component := group m 1 in
  let operation := group m 2 in
  let rest := group m 3 in
  let fields := [] in
  let fields :=
    match re_search namespace_re rest with
    | Some namespace_match =>
        fields ++ [sdklog_call "String" (lit "namespace")
                     (strip (group namespace_match 1))]
    | None => fields
    end in
  let fields :=
    match re_search source_re rest with
    | Some source_match =>
        fields ++ [sdklog_call "String" (lit "source")
                     (strip (group source_match 1))]
    | None => fields
    end in
  let fields :=
    match re_search error_re rest with
    | Some error_match => fields ++ [sdklog_error (strip (group error_match 1))]
    | None => fields
    end in
  let fields :=
    match re_search additional_re rest with
    | Some additional_match =>
        let additional_content := group additional_match 1 in
        let kv_pairs := findall2 kv_re additional_content in
        fold_left (fun fields kv => fields ++ [kv_field kv]) kv_pairs fields
    | None => fields
    end in
  [sdklog_operation operation] ++ fields.

Definition replace_fields (m : rmatch) : str := join (lit ", ") (all_fields m).

(** ** migrate_logger_fields *)

(** ^\s*func\s+ *)
Definition func_start_re : regex :=
  (Bol ;; ws ;; Lit (lit "func") ;; Plus true is_space)%re.

(** func\s+\([^)]+\)\s+(\w+) *)
Definition func_name_re : regex :=
  (Lit (lit "func") ;; Plus true is_space ;; Lit (lit "(") ;;
   Plus true (none_of [")"%char]) ;; Lit (lit ")") ;; Plus true is_space ;;
   Group 1 (Plus true is_word))%re.

(** ^\s+logger\.(Info|Warn|Error|Debug)\( *)
Definition logcall_re : regex :=
  (Bol ;; Plus true is_space ;; Lit (lit "logger.") ;;
   Group 1 (Lit (lit "Info") <|> Lit (lit "Warn") <|> Lit (lit "Error") <|>
            Lit (lit "Debug")) ;;
   Lit (lit "("))%re.

Definition fields_marker : str := lit "logger.Fields{".
Definition todo_marker : str := lit "// TODO: Replace logger.Fields block".
Definition declaration : str := lit "logger := sdklog.NewLogger".
Definition declaration_line : str :=
  tab :: lit "logger := sdklog.NewLogger(" ++ quoted (lit "zen-watcher-config")
  ++ lit ")".

(** [line.count('{') - line.count('}')] *)
Definition brace_delta (line : str) : Z :=
  (count "{"%char line - count "}"%char line)%Z.

(** f"// TODO: Replace logger.Fields block\n{block}" *)
Definition todo_block (block_lines : list str) : str :=
  todo_marker ++ [nl] ++ join [nl] block_lines.

(** The state of the scan. *)
Record state : Type := mkState {
  i : nat;
  new_lines : list str;
  logger_declared : set str
}.

(** The first [if] of the loop body: a function start records the name of
    the function. *)
Definition record_function (line : str) (declared : set str) : set str :=
  if matched (re_match func_start_re line) then
    match re_search func_name_re line with
    | Some func_match => set_add str_eq_dec (group func_match 1) declared
    | None => declared
    end
  else declared.

(** The inner [while]: the lines of the block, up to the line that brings
    the brace count to zero or below. *)
Fixpoint capture (fuel : nat) (lines : list str) (i : nat)
  (block_lines : list str) (brace_count : Z) : outcome (nat * list str) :=
  if (i <? length lines) && (0 <? brace_count)%Z then
    match fuel with
    | O => OutOfFuel
    | S fuel' =>
        do l <- index lines i;
        capture fuel' lines (S i) (block_lines ++ [l])
          (brace_count + brace_delta l)
    end
  else Done (i, block_lines).

(** any('logger := sdklog.NewLogger' in prev_line
        for prev_line in new_lines[-10:]) *)
Definition recently_declared (new_lines : list str) : bool :=
  existsb (contains declaration) (last_n 10 new_lines).

(** The rest of the loop body: what is appended to [new_lines] and where the
    scan goes on. *)
Definition emit (lines : list str) (i : nat) (new_lines : list str)
  : outcome (nat * list str) :=
  do line <- index lines i;
  if contains fields_marker line then
    do r <- capture (length lines) lines (S i) [line] (brace_delta line);
    let (i', block_lines) := r in
    Done (i', new_lines ++ [todo_block block_lines])
  else
    let new_lines :=
      if matched (re_match logcall_re line) then
        if negb (recently_declared new_lines) then
          new_lines ++ [declaration_line]
        else new_lines
      else new_lines in
    Done (S i, new_lines ++ [line]).

(** One iteration of the outer [while]. *)
Definition body (lines : list str) (st : state) : outcome state :=
  do line <- index lines (i st);
  let declared := record_function line (logger_declared st) in
  do r <- emit lines (i st) (new_lines st);
  let (i', new_lines') := r in
  Done (mkState i' new_lines' declared).

(** The outer [while]. *)
Fixpoint main_loop (fuel : nat) (lines : list str) (st : state)
  : outcome state :=
  if i st <? length lines then
    match fuel with
    | O => OutOfFuel
    | S fuel' => do st' <- body lines st; main_loop fuel' lines st'
    end
  else Done st.

Definition initial : state := mkState 0 [] (empty_set str).

Definition migrate_logger_fields (content : str) : outcome str :=
  let lines := split nl content in
  do st <- main_loop (length lines) lines initial;
  Done (join [nl] (new_lines st)).

(** The variant of the scan without the first [if] of the body: no state
    but the position and the emitted lines. *)
Fixpoint main_loop_unrecorded (fuel : nat) (lines : list str) (i : nat)
  (new_lines : list str) : outcome (nat * list str) :=
  if i <? length lines then
    match fuel with
    | O => OutOfFuel
    | S fuel' =>
        do r <- emit lines i new_lines;
        main_loop_unrecorded fuel' lines (fst r) (snd r)
    end
  else Done (i, new_lines).

Definition migrate_unrecorded (content : str) : outcome str :=
  let lines := split nl content in
  do r <- main_loop_unrecorded (length lines) lines 0 [];
  Done (join [nl] (snd r)).

(** ** The scan as a transition system *)

Inductive step (lines : list str) : state -> state -> Prop :=
| step_body (st st' : state) :
    i st < length lines -> body lines st = Done st' -> step lines st st'.

(** The states the outer loop goes through. *)
Inductive reachable (lines : list str) : state -> Prop :=
| reach_initial : reachable lines initial
| reach_step (st st' : state) :
    reachable lines st -> step lines st st' -> reachable lines st'.

(** ** Blocks, described without the loop *)

(** How many of the lines [rest] the inner loop takes when it starts with
    the brace count [bc]. *)
Fixpoint open_run (bc : Z) (rest : list str) : nat :=
  match rest with
  | [] => 0
  | l :: rest' =>
      if (0 <? bc)%Z then S (open_run (bc + brace_delta l) rest') else 0
  end.

(** What one iteration appends to the emitted lines [out] when it reads
    [line] at position [n], and where it leaves the scan. *)
Definition emitted (lines : list str) (n : nat) (line : str) (out : list str)
  : nat * list str :=
  if contains fields_marker line then
    let k := open_run (brace_delta line) (skipn (S n) lines) in
    (S n + k, out ++ [todo_block (line :: firstn k (skipn (S n) lines))])
  else
    (S n,
     (if matched (re_match logcall_re line) then
        if negb (recently_declared out) then out ++ [declaration_line] else out
      else out) ++ [line]).

(** The brace count is positive before each line of [rest] and is zero or
    less after the last one. *)
Fixpoint closes_at_end (bc : Z) (rest : list str) : bool :=
  match rest with
  | [] => (bc <=? 0)%Z
  | l :: rest' => (0 <? bc)%Z && closes_at_end (bc + brace_delta l) rest'
  end.

(** The brace count is positive before each line of [rest] and after the
    last one. *)
Fixpoint never_closes (bc : Z) (rest : list str) : bool :=
  match rest with
  | [] => (0 <? bc)%Z
  | l :: rest' => (0 <? bc)%Z && never_closes (bc + brace_delta l) rest'
  end.

(** A block with balanced delimiters: it opens on a line with the marker and
    its last line is the first to bring the brace count back to zero. *)
Definition balanced_block (blk : list str) : bool :=
  match blk with
  | [] => false
  | first :: rest =>
      contains fields_marker first && closes_at_end (brace_delta first) rest
  end.

(** A block that is still open at the end of the document. *)
Definition unbalanced_block (blk : list str) : bool :=
  match blk with
  | [] => false
  | first :: rest =>
      contains fields_marker first && never_closes (brace_delta first) rest
  end.

(** [a] is [b] with some lines left out. *)
Fixpoint is_subseq (a b : list str) : bool :=
  match a, b with
  | [], _ => true
  | _ :: _, [] => false
  | x :: a', y :: b' =>
      if str_eq_dec x y then is_subseq a' b' else is_subseq a b'
  end.

(** [a] is [b] with some lines left out, as a relation. *)
Inductive subseq : list str -> list str -> Prop :=
| subseq_nil : subseq [] []
| subseq_keep (x : str) (a b : list str) : subseq a b -> subseq (x :: a) (x :: b)
| subseq_skip (y : str) (a b : list str) : subseq a b -> subseq a (y :: b).

(** A line that does not start with a whitespace character. *)
Definition starts_at_column_0 (line : str) : bool :=
  match line with
  | [] => true
  | c :: _ => negb (is_space c)
  end.

(** ** What the patterns mean

    A declarative reading of [regex]: [matches r pos c ahead g g'] says that
    [r] matches the text [c] at offset [pos] with [ahead] following it, and
    takes the groups from [g] to [g']. *)

Inductive matches : regex -> nat -> str -> str -> caps -> caps -> Prop :=
| matches_lit (w : str) (pos : nat) (ahead : str) (g : caps) :
    matches (Lit w) pos w ahead g g
| matches_cls (p : ascii -> bool) (c : ascii) (pos : nat) (ahead : str)
    (g : caps) :
    p c = true -> matches (Cls p) pos [c] ahead g g
| matches_seq (r1 r2 : regex) (pos : nat) (c1 c2 ahead : str)
    (g g1 g2 : caps) :
    matches r1 pos c1 (c2 ++ ahead) g g1 ->
    matches r2 (pos + length c1) c2 ahead g1 g2 ->
    matches (Seq r1 r2) pos (c1 ++ c2) ahead g g2
| matches_alt_l (r1 r2 : regex) (pos : nat) (c ahead : str) (g g1 : caps) :
    matches r1 pos c ahead g g1 -> matches (Alt r1 r2) pos c ahead g g1
| matches_alt_r (r1 r2 : regex) (pos : nat) (c ahead : str) (g g1 : caps) :
    matches r2 pos c ahead g g1 -> matches (Alt r1 r2) pos c ahead g g1
| matches_star (greedy : bool) (p : ascii -> bool) (pos : nat)
    (c ahead : str) (g : caps) :
    forallb p c = true -> matches (Star greedy p) pos c ahead g g
| matches_group (n : nat) (r : regex) (pos : nat) (c ahead : str)
    (g g1 : caps) :
    matches r pos c ahead g g1 ->
    matches (Group n r) pos c ahead g ((n, c) :: g1)
| matches_ahead (r : regex) (pos : nat) (c rest ahead : str) (g g1 : caps) :
    ahead = c ++ rest -> matches r pos c rest g g1 ->
    matches (Ahead r) pos [] ahead g g1
| matches_bol (ahead : str) (g : caps) : matches Bol 0 [] ahead g g
| matches_eol (pos : nat) (ahead : str) (g : caps) :
    ahead = [] \/ ahead = [nl] -> matches Eol pos [] ahead g g.

(** A match of [r] found in the text [s]: where it lies and what it holds. *)
Definition located (r : regex) (s : str) (m : rmatch) : Prop :=
  exists a c,
    s = a ++ c ++ m_rest m
    /\ m_start m = length a
    /\ m_end m = length a + length c
    /\ matches r (m_start m) c (m_rest m) [] (m_groups m).

(** The matches follow one another from offset [from] on, without
    overlapping. *)
Fixpoint in_order (from : nat) (ms : list rmatch) : bool :=
  match ms with
  | [] => true
  | m :: ms' =>
      (from <=? m_start m) && (m_start m <=? m_end m) && in_order (m_end m) ms'
  end.

(** The text of a block that [pattern] recognizes, from the marker to the
    first closing brace; [sp1] to [sp4] are the whitespace between the
    parts. *)
Definition block_text (component operation rest sp1 sp2 sp3 sp4 : str) : str :=
  lit "logger.Fields{" ++ sp1 ++ lit "Component:" ++ sp2 ++ quoted component
  ++ lit "," ++ sp3 ++ lit "Operation:" ++ sp4 ++ quoted operation ++ rest
  ++ lit "}".

(** A match of the key/value pattern in [content]: the quoted key, a
    colon, whitespace and the value stand in the text at the offset of the
    match. *)
Definition pair_at (content : str) (km : rmatch) : Prop :=
  exists before gap,
    content
    = before ++ quoted (group km 1) ++ lit ":" ++ gap ++ group km 2
      ++ m_rest km
    /\ length before = m_start km
    /\ forallb is_space gap = true
    /\ m_start km < m_end km.

(** What is left to do for [finditer]: two steps for each character ahead,
    and one more when the empty match is still allowed here. *)
Definition finditer_measure (must_advance : bool) (s : str) : nat :=
  2 * length s + (if must_advance then 0 else 1).

(** The text after the leading characters of class [p], and how many of
    them there are. *)
Fixpoint skip_while (p : ascii -> bool) (s : str) : str :=
  match s with
  | [] => []
  | c :: s' => if p c then skip_while p s' else s
  end.

Fixpoint run_length (p : ascii -> bool) (s : str) : nat :=
  match s with
  | [] => 0
  | c :: s' => if p c then S (run_length p s') else 0
  end.

(** The kinds of values, described without the patterns. *)
Definition all_digits (v : str) : bool :=
  match v with
  | [] => false
  | _ :: _ => forallb is_digit v
  end.

Definition starts_with_decimal (v : str) : bool :=
  match v with
  | [] => false
  | c :: v' =>
      is_digit c &&
      match skip_while is_digit v' with
      | d :: e :: _ => Ascii.eqb d "."%char && is_digit e
      | _ => false
      end
  end.

Definition kind (v : str) : string :=
  if startswith [dq] v || startswith [sq] v then "String"
  else if all_digits v then "Int"
  else if starts_with_decimal v then "Float64"
  else "String".

(** ** Lines, described without the patterns *)

(** The four levels of the logging-call pattern. *)
Definition log_levels : list str :=
  [lit "Info"; lit "Warn"; lit "Error"; lit "Debug"].

(** A line of whitespace, at least one character, followed by
    [logger.<Level>(]. *)
Definition is_logcall (line : str) : bool :=
  match line with
  | [] => false
  | c :: line' =>
      is_space c &&
      existsb
        (fun level =>
           startswith (lit "logger." ++ level ++ lit "(")
             (skip_while is_space line'))
        log_levels
  end.

(** Where a line of the result comes from: the document, the marker comment
    or the synthesized declaration. *)
Definition known_line (lines : list str) (l : str) : Prop :=
  In l lines \/ l = todo_marker \/ l = declaration_line.

(** What holds of the emitted lines all along the scan. *)
Definition lines_invariant (lines : list str) (st : state) : Prop :=
  let result := concat (map (split nl) (new_lines st)) in
  i st <= length lines
  /\ Forall (known_line lines) result
  /\ i st <= length result <= 2 * i st
  /\ (existsb (contains fields_marker) (firstn (i st) lines) = true ->
      i st < length result)
  /\ subseq (firstn (i st) lines) result.

(** [name] stands in [line] after [func], whitespace, a text in parentheses
    and whitespace, and is made of word characters.  The text in parentheses
    may be a receiver, and then [name] is the name of a method; it may as
    well be the parameter list of a function type. *)
Definition follows_func_parens (line name : str) : Prop :=
  exists a sp1 recv sp2 b,
    line = a ++ lit "func" ++ sp1 ++ lit "(" ++ recv ++ lit ")" ++ sp2
           ++ name ++ b
    /\ sp1 <> [] /\ forallb is_space sp1 = true
    /\ recv <> [] /\ forallb (none_of [")"%char]) recv = true
    /\ sp2 <> [] /\ forallb is_space sp2 = true
    /\ name <> [] /\ forallb is_word name = true.

(** The scan of a document without marker lines, as a fold: what one line
    appends to the emitted lines, and the lines emitted in the end. *)
Definition append_line (out : list str) (line : str) : list str :=
  (if matched (re_match logcall_re line) then
     if negb (recently_declared out) then out ++ [declaration_line] else out
   else out) ++ [line].

Definition add_declarations (lines : list str) : list str :=
  fold_left append_line lines [].

(** A line that holds no marker and no declaration and is no logging
    call. *)
Definition plain_line (l : str) : bool :=
  negb (contains fields_marker l) && negb (contains declaration l)
  && negb (matched (re_match logcall_re l)).

(** ** Repeated passes and the first occurrence of a keyword *)

(** The scan run [n] times, each pass on the result of the one before. *)
Fixpoint passes (n : nat) (content : str) : outcome str :=
  match n with
  | O => Done content
  | S n' => do out <- passes n' content; migrate_logger_fields out
  end.






(** * Properties *)

(** ** Text *)

Section Text.

Lemma split_nonempty (sep : ascii) (s : str) : split sep s <> [].
Proof.
  destruct s as [|c s]; simpl; [discriminate|].
  destruct (Ascii.eqb c sep); [discriminate|].
  destruct (split sep s); discriminate.
Qed.

Lemma join_cons2 (sep x y : str) (l : list str) :
  join sep (x :: y :: l) = x ++ sep ++ join sep (y :: l).
Proof. reflexivity. Qed.

Lemma join_cons (sep x : str) (l : list str) :
  l <> [] -> join sep (x :: l) = x ++ sep ++ join sep l.
Proof. destruct l; [congruence | reflexivity]. Qed.

Lemma join_app (sep : str) (a b : list str) :
  a <> [] -> b <> [] -> join sep (a ++ b) = join sep a ++ sep ++ join sep b.
Proof.
  intros Ha Hb. induction a as [|x a IH]; [congruence|].
  destruct a as [|y a].
  - simpl app. rewrite join_cons by assumption. reflexivity.
  - change ((x :: y :: a) ++ b) with (x :: (y :: a) ++ b).
    rewrite join_cons by discriminate.
    rewrite IH by discriminate. rewrite join_cons2.
    rewrite <- !app_assoc. reflexivity.
Qed.

(** Splitting at the newlines and joining again gives the text back. *)
Lemma join_split (s : str) : join [nl] (split nl s) = s.
Proof.
  induction s as [|c s IH]; [reflexivity|].
  simpl split. destruct (Ascii.eqb c nl) eqn:E.
  - apply Ascii.eqb_eq in E. subst c.
    rewrite join_cons by apply split_nonempty. rewrite IH. reflexivity.
  - destruct (split nl s) as [|l ls] eqn:Es.
    + exfalso. eapply split_nonempty; eassumption.
    + destruct ls as [|l2 ls].
      * simpl in *. congruence.
      * rewrite join_cons2. rewrite join_cons2 in IH.
        rewrite <- IH. reflexivity.
Qed.

Lemma split_app (a b : str) :
  split nl (a ++ nl :: b) = split nl a ++ split nl b.
Proof.
  induction a as [|c a IH]; simpl.
  - reflexivity.
  - destruct (Ascii.eqb c nl).
    + rewrite IH. reflexivity.
    + rewrite IH. destruct (split nl a) as [|l ls] eqn:Es.
      * exfalso. eapply split_nonempty; eassumption.
      * reflexivity.
Qed.

Lemma split_line (l : str) : ~ In nl l -> split nl l = [l].
Proof.
  induction l as [|c l IH]; intros H; [reflexivity|].
  simpl. destruct (Ascii.eqb c nl) eqn:E.
  - apply Ascii.eqb_eq in E. subst. exfalso. apply H. left. reflexivity.
  - rewrite IH; [reflexivity|]. intros Hin. apply H. right. assumption.
Qed.

(** No line of a split text holds a newline. *)
Lemma split_lines (s : str) : Forall (fun l => ~ In nl l) (split nl s).
Proof.
  induction s as [|c s IH]; simpl.
  - constructor; [intros []|constructor].
  - destruct (Ascii.eqb c nl) eqn:E.
    + constructor; [intros []|assumption].
    + destruct (split nl s) as [|l ls]; [repeat constructor|].
      * intros [H|[]]. subst. rewrite Ascii.eqb_refl in E. discriminate.
      * inversion IH; subst. constructor; [|assumption].
        intros [H|H]; [|contradiction].
        subst. rewrite Ascii.eqb_refl in E. discriminate.
Qed.

(** The lines of a joined text are the lines of its parts. *)
Lemma split_join (ls : list str) :
  ls <> [] -> split nl (join [nl] ls) = concat (map (split nl) ls).
Proof.
  induction ls as [|x ls IH]; [congruence|]. intros _.
  destruct ls as [|y ls].
  - simpl. rewrite app_nil_r. reflexivity.
  - rewrite join_cons2. change ([nl] ++ join [nl] (y :: ls))
      with (nl :: join [nl] (y :: ls)).
    rewrite split_app, IH by discriminate. reflexivity.
Qed.

Lemma startswith_app (p s : str) : startswith p (p ++ s) = true.
Proof.
  induction p as [|a p IH]; [reflexivity|].
  simpl. rewrite Ascii.eqb_refl. assumption.
Qed.

Lemma startswith_split (p s : str) :
  startswith p s = true -> s = p ++ skipn (length p) s.
Proof.
  revert s. induction p as [|a p IH]; intros s H; [reflexivity|].
  destruct s as [|b s]; [discriminate|]. simpl in H.
  apply andb_prop in H. destruct H as [E H]. apply Ascii.eqb_eq in E.
  subst. simpl. f_equal. apply IH. assumption.
Qed.

Lemma contains_app (needle a b : str) :
  contains needle (a ++ needle ++ b) = true.
Proof.
  induction a as [|c a IH].
  - simpl app. destruct (needle ++ b) eqn:E; simpl.
    + destruct needle; [reflexivity | discriminate].
    + rewrite <- E, startswith_app. reflexivity.
  - simpl app. simpl. rewrite IH. apply orb_true_r.
Qed.

Lemma contains_split (needle hay : str) :
  contains needle hay = true -> exists a b, hay = a ++ needle ++ b.
Proof.
  induction hay as [|c hay IH]; simpl; intros H.
  - rewrite orb_false_r in H. exists [], []. simpl.
    destruct needle; [reflexivity | discriminate].
  - apply orb_prop in H. destruct H as [H|H].
    + exists [], (skipn (length needle) (c :: hay)).
      apply startswith_split in H. exact H.
    + destruct (IH H) as (a & b & ->). exists (c :: a), b. reflexivity.
Qed.

End Text.

(** ** The two loops *)

Section Loops.

Variable lines : list str.

Lemma skipn_nth (n : nat) (l : str) :
  nth_error lines n = Some l -> skipn n lines = l :: skipn (S n) lines.
Proof.
  revert n. induction lines as [|x xs IH]; intros [|n] H; try discriminate.
  - injection H as ->. reflexivity.
  - simpl in H. apply IH in H. exact H.
Qed.

Lemma index_in_range (n : nat) :
  n < length lines -> exists l, nth_error lines n = Some l /\ index lines n = Done l.
Proof.
  intros H. unfold index.
  destruct (nth_error lines n) as [l|] eqn:E.
  - exists l. split; reflexivity.
  - apply nth_error_None in E. lia.
Qed.

Lemma open_run_le (bc : Z) (rest : list str) : open_run bc rest <= length rest.
Proof.
  revert bc. induction rest as [|l rest IH]; intros bc; simpl; [lia|].
  destruct (0 <? bc)%Z; [|lia]. specialize (IH (bc + brace_delta l)%Z). lia.
Qed.

(** The inner loop never raises and never runs out of fuel: it takes the
    lines that [open_run] counts. *)
Lemma capture_run (fuel n : nat) (block_lines : list str) (bc : Z) :
  length lines - n <= fuel ->
  capture fuel lines n block_lines bc =
  Done (n + open_run bc (skipn n lines),
        block_lines ++ firstn (open_run bc (skipn n lines)) (skipn n lines)).
Proof.
  revert n block_lines bc.
  induction fuel as [|fuel IH]; intros n block_lines bc Hf.
  - simpl. destruct (n <? length lines) eqn:E.
    + apply Nat.ltb_lt in E. lia.
    + apply Nat.ltb_ge in E. rewrite skipn_all2 by assumption. simpl.
      rewrite Nat.add_0_r, app_nil_r. reflexivity.
  - simpl. destruct (n <? length lines) eqn:E.
    + apply Nat.ltb_lt in E.
      destruct (index_in_range n E) as (l & Hn & Hi).
      rewrite (skipn_nth _ _ Hn). simpl.
      destruct (0 <? bc)%Z.
      * rewrite Hi. simpl. rewrite IH by lia.
        rewrite Nat.add_succ_r, <- app_assoc. reflexivity.
      * simpl. rewrite Nat.add_0_r, app_nil_r. reflexivity.
    + apply Nat.ltb_ge in E. rewrite skipn_all2 by assumption. simpl.
      rewrite Nat.add_0_r, app_nil_r. reflexivity.
Qed.

Lemma emit_run (n : nat) (line : str) (out : list str) :
  nth_error lines n = Some line ->
  emit lines n out = Done (emitted lines n line out).
Proof.
  intros Hn. unfold emit, emitted, index. rewrite Hn. simpl.
  destruct (contains fields_marker line); [|reflexivity].
  rewrite capture_run by lia. reflexivity.
Qed.

Lemma body_run (st : state) (line : str) :
  nth_error lines (i st) = Some line ->
  body lines st =
  Done (mkState (fst (emitted lines (i st) line (new_lines st)))
                (snd (emitted lines (i st) line (new_lines st)))
                (record_function line (logger_declared st))).
Proof.
  intros Hn. unfold body, index. rewrite Hn. simpl.
  rewrite (emit_run _ _ _ Hn). simpl.
  destruct (emitted lines (i st) line (new_lines st)). reflexivity.
Qed.

Lemma emitted_advances (n : nat) (line : str) (out : list str) :
  n < length lines ->
  n < fst (emitted lines n line out) <= length lines
  /\ exists es, snd (emitted lines n line out) = out ++ es.
Proof.
  intros Hn. unfold emitted.
  destruct (contains fields_marker line); cbn [fst snd].
  - pose proof (open_run_le (brace_delta line) (skipn (S n) lines)) as H.
    rewrite length_skipn in H. split; [lia|]. eexists. reflexivity.
  - split; [lia|].
    destruct (matched (re_match logcall_re line)); [|eexists; reflexivity].
    destruct (negb (recently_declared out)); [|eexists; reflexivity].
    rewrite <- app_assoc. eexists. reflexivity.
Qed.

(** An iteration always succeeds, moves the scan forward and only appends to
    the emitted lines. *)
Lemma body_total (st : state) :
  i st < length lines ->
  exists st', body lines st = Done st'
    /\ i st < i st' <= length lines
    /\ exists es, new_lines st' = new_lines st ++ es.
Proof.
  intros Hi. destruct (index_in_range _ Hi) as (line & Hn & _).
  rewrite (body_run _ _ Hn). eexists. split; [reflexivity|]. simpl.
  apply emitted_advances. assumption.
Qed.

(** The rule of the outer loop: an invariant of the body holds at the end,
    and the loop ends. *)
Lemma main_loop_rule (P : state -> Prop) :
  (forall st st', P st -> i st < length lines -> body lines st = Done st' ->
                  P st') ->
  forall fuel st, P st -> length lines - i st <= fuel ->
  exists st', main_loop fuel lines st = Done st' /\ P st'
              /\ length lines <= i st'.
Proof.
  intros Hstep. induction fuel as [|fuel IH]; intros st HP Hf.
  - simpl. destruct (i st <? length lines) eqn:E.
    + apply Nat.ltb_lt in E. lia.
    + apply Nat.ltb_ge in E. eauto.
  - simpl. destruct (i st <? length lines) eqn:E.
    + apply Nat.ltb_lt in E.
      destruct (body_total st E) as (st' & Hb & Hi & _).
      rewrite Hb. simpl. apply IH; [eapply Hstep; eassumption | lia].
    + apply Nat.ltb_ge in E. eauto.
Qed.

(** Fuel beyond the number of lines still to scan changes nothing. *)
Lemma main_loop_fuel (fuel1 fuel2 : nat) (st : state) :
  length lines - i st <= fuel1 -> length lines - i st <= fuel2 ->
  main_loop fuel1 lines st = main_loop fuel2 lines st.
Proof.
  revert fuel2 st.
  induction fuel1 as [|fuel1 IH]; intros fuel2 st H1 H2.
  - destruct fuel2; simpl; destruct (i st <? length lines) eqn:E;
      try reflexivity; apply Nat.ltb_lt in E; lia.
  - destruct fuel2; simpl; destruct (i st <? length lines) eqn:E;
      try reflexivity; apply Nat.ltb_lt in E; try lia.
    destruct (body_total st E) as (st' & Hb & Hi & _).
    rewrite Hb. simpl. apply IH; lia.
Qed.

Lemma main_loop_appends (fuel : nat) (st : state) :
  length lines - i st <= fuel ->
  exists st', main_loop fuel lines st = Done st'
    /\ i st' = Nat.max (i st) (length lines)
    /\ exists more, new_lines st' = new_lines st ++ more.
Proof.
  intros Hf.
  destruct (main_loop_rule
              (fun s => i s <= Nat.max (i st) (length lines)
                        /\ exists more, new_lines s = new_lines st ++ more))
    with (fuel := fuel) (st := st) as (st' & Hr & (Hi & Hm) & Hl).
  - intros s s' (Hs & more & Hm) Hlt Hb.
    destruct (body_total s Hlt) as (s2 & Hb2 & Hi2 & es & He).
    rewrite Hb in Hb2. injection Hb2 as <-. split; [lia|].
    exists (more ++ es). rewrite He, Hm, app_assoc. reflexivity.
  - split; [lia|]. exists []. rewrite app_nil_r. reflexivity.
  - assumption.
  - exists st'. split; [assumption|]. split; [|assumption].
    destruct (Nat.le_gt_cases (length lines) (i st)) as [Hge|Hlt].
    + destruct fuel; simpl in Hr;
        (destruct (i st <? length lines) eqn:E;
         [apply Nat.ltb_lt in E; lia|]); injection Hr as <-; lia.
    + lia.
Qed.

(** From a reachable state the loop ends where it ends from the start. *)
Lemma reachable_run (st : state) :
  reachable lines st ->
  forall fuel, length lines - i st <= fuel ->
  main_loop fuel lines st = main_loop (length lines) lines initial.
Proof.
  induction 1 as [|st st' Hr IH Hs]; intros fuel Hf.
  - unfold initial in *; cbn [i] in *. apply main_loop_fuel; cbn [i]; lia.
  - destruct Hs as [st st' Hi Hb].
    destruct (body_total st Hi) as (s2 & Hb2 & Hi2 & _).
    rewrite Hb in Hb2. injection Hb2 as <-.
    rewrite <- (IH (S (length lines))) by lia. simpl.
    apply Nat.ltb_lt in Hi. rewrite Hi, Hb. simpl.
    apply main_loop_fuel; lia.
Qed.

Lemma reachable_in_range (st : state) :
  reachable lines st -> i st <= length lines.
Proof.
  induction 1 as [|st st' Hr IH Hs]; [unfold initial; cbn [i]; lia|].
  destruct Hs as [st st' Hi Hb].
  destruct (body_total st Hi) as (s2 & Hb2 & Hi2 & _).
  rewrite Hb in Hb2. injection Hb2 as <-. lia.
Qed.

(** What a reachable state has emitted stays at the head of the result. *)
Lemma reachable_prefix (st : state) :
  reachable lines st ->
  exists st', main_loop (length lines) lines initial = Done st'
    /\ i st' = length lines
    /\ exists more, new_lines st' = new_lines st ++ more.
Proof.
  intros Hr. pose proof (reachable_in_range st Hr) as Hi.
  destruct (main_loop_appends (length lines) st) as (st' & Hm & Hi' & He);
    [lia|].
  rewrite (reachable_run st Hr) in Hm by lia.
  exists st'. repeat split; [assumption | lia | assumption].
Qed.

End Loops.

(** ** The document without markers and logging calls *)

Lemma firstn_succ_nth (A : Type) (l : list A) (n : nat) (x : A) :
  nth_error l n = Some x -> firstn (S n) l = firstn n l ++ [x].
Proof.
  revert n. induction l as [|y l IH]; intros [|n] H; try discriminate.
  - injection H as ->. reflexivity.
  - simpl in H. change (y :: firstn (S n) l = y :: firstn n l ++ [x]).
    f_equal. apply IH. assumption.
Qed.

(** C1.  A document in which no line holds the marker [logger.Fields{] and
    no line matches the logging-call pattern comes out unchanged. *)
Theorem unchanged_without_marker_and_logcall (content : str) :
  (forall line, In line (split nl content) ->
     contains fields_marker line = false /\ re_match logcall_re line = None) ->
  migrate_logger_fields content = Done content.
Proof.
  intros Hplain. unfold migrate_logger_fields.
  set (lines := split nl content) in *.
  destruct (main_loop_rule lines
              (fun st => new_lines st = firstn (i st) lines))
    with (fuel := length lines) (st := initial) as (st & Hr & Hp & Hl).
  - intros st st' Hp Hi Hb.
    destruct (index_in_range lines _ Hi) as (line & Hn & _).
    rewrite (body_run lines st line Hn) in Hb. injection Hb as <-.
    destruct (Hplain line (nth_error_In _ _ Hn)) as (Hm & Hc).
    unfold emitted. rewrite Hm, Hc. simpl.
    rewrite Hp. symmetry. apply firstn_succ_nth. assumption.
  - reflexivity.
  - unfold initial; cbn [i]; lia.
  - rewrite Hr. simpl. rewrite Hp, firstn_all2 by assumption.
    unfold lines. rewrite join_split. reflexivity.
Qed.

Lemma unchanged_without_marker_and_logcall_witness :
  migrate_logger_fields (lit "func main() {" ++ [nl] ++ lit "}")
  = Done (lit "func main() {" ++ [nl] ++ lit "}").
Proof.
  apply unchanged_without_marker_and_logcall.
  intros line Hin. vm_compute in Hin.
  destruct Hin as [<-|[<-|[]]]; split; reflexivity.
Defined.

(** ** The recorded function names *)

Lemma main_loop_unrecorded_sim (fuel : nat) (lines : list str) (st : state) :
  (do st' <- main_loop fuel lines st; Done (i st', new_lines st'))
  = main_loop_unrecorded fuel lines (i st) (new_lines st).
Proof.
  revert st. induction fuel as [|fuel IH]; intros st; simpl.
  - destruct (i st <? length lines); reflexivity.
  - destruct (i st <? length lines); [|reflexivity].
    unfold body. unfold emit at 2.
    destruct (index lines (i st)) as [line| |] eqn:Ei; simpl; try reflexivity.
    assert (He : emit lines (i st) (new_lines st)
                 = (do line <- Done line;
                    if contains fields_marker line then
                      do r <- capture (length lines) lines (S (i st)) [line]
                                (brace_delta line);
                      let (i', block_lines) := r in
                      Done (i', new_lines st ++ [todo_block block_lines])
                    else
                      Done (S (i st),
                            (if matched (re_match logcall_re line) then
                               if negb (recently_declared (new_lines st)) then
                                 new_lines st ++ [declaration_line]
                               else new_lines st
                             else new_lines st) ++ [line]))).
    { unfold emit. rewrite Ei. reflexivity. }
    simpl in He. rewrite <- He.
    destruct (emit lines (i st) (new_lines st)) as [[n out]| |]; simpl;
      try reflexivity.
    apply (IH (mkState n out (record_function line (logger_declared st)))).
Qed.

(** C8.  Recording the function names has no effect on the result: the
    scan with the recording left out returns the same outcome on every
    document. *)
Theorem recording_is_unobservable (content : str) :
  migrate_logger_fields content = migrate_unrecorded content.
Proof.
  unfold migrate_logger_fields, migrate_unrecorded.
  rewrite <- (main_loop_unrecorded_sim _ _ initial).
  destruct (main_loop (length (split nl content)) (split nl content) initial);
    reflexivity.
Qed.

(** ** Blocks *)

Lemma closes_open_run (bc : Z) (rest post : list str) :
  closes_at_end bc rest = true -> open_run bc (rest ++ post) = length rest.
Proof.
  revert bc. induction rest as [|l rest IH]; intros bc H; simpl in *.
  - apply Z.leb_le in H. destruct post as [|p post]; [reflexivity|].
    simpl. destruct (0 <? bc)%Z eqn:E; [|reflexivity].
    apply Z.ltb_lt in E. lia.
  - apply andb_prop in H. destruct H as [Hb H]. rewrite Hb.
    f_equal. apply IH. assumption.
Qed.

Lemma never_closes_open_run (bc : Z) (rest : list str) :
  never_closes bc rest = true -> open_run bc rest = length rest.
Proof.
  revert bc. induction rest as [|l rest IH]; intros bc H; simpl in *.
  - reflexivity.
  - apply andb_prop in H. destruct H as [Hb H]. rewrite Hb.
    f_equal. apply IH. assumption.
Qed.

Lemma nth_error_middle (A : Type) (pre post : list A) (x : A) :
  nth_error (pre ++ x :: post) (length pre) = Some x.
Proof. rewrite nth_error_app2, Nat.sub_diag by lia. reflexivity. Qed.

Lemma skipn_middle (A : Type) (pre post : list A) (x : A) :
  skipn (S (length pre)) (pre ++ x :: post) = post.
Proof.
  change (pre ++ x :: post) with (pre ++ [x] ++ post).
  rewrite app_assoc.
  replace (S (length pre)) with (length (pre ++ [x]))
    by (rewrite length_app; simpl; lia).
  rewrite skipn_app, Nat.sub_diag, skipn_all. reflexivity.
Qed.

(** The iteration that starts on the first line of a block emits the marker
    and the block, and goes on after the block. *)
Lemma body_on_block (pre rest post : list str) (first : str) (st : state) :
  i st = length pre ->
  contains fields_marker first = true ->
  open_run (brace_delta first) (rest ++ post) = length rest ->
  body (pre ++ (first :: rest) ++ post) st =
  Done (mkState (length pre + length (first :: rest))
                (new_lines st ++ [todo_block (first :: rest)])
                (record_function first (logger_declared st))).
Proof.
  intros Hi Hm Hk.
  assert (Hn : nth_error (pre ++ (first :: rest) ++ post) (i st) = Some first).
  { rewrite Hi. apply nth_error_middle. }
  rewrite (body_run _ _ _ Hn). unfold emitted. cbv zeta.
  change (pre ++ (first :: rest) ++ post) with (pre ++ first :: rest ++ post).
  rewrite Hm, Hi, skipn_middle, Hk.
  rewrite firstn_app, Nat.sub_diag, firstn_all. cbn [fst snd firstn length].
  rewrite app_nil_r. do 2 f_equal. lia.
Qed.

Lemma join_middle (sep e : str) (before after : list str) :
  exists a b, join sep (before ++ e :: after) = a ++ e ++ b.
Proof.
  destruct before as [|x before]; destruct after as [|y after].
  - exists [], []. simpl. rewrite app_nil_r. reflexivity.
  - exists [], (sep ++ join sep (y :: after)). reflexivity.
  - exists (join sep (x :: before) ++ sep), [].
    rewrite join_app by discriminate. simpl join at 2.
    rewrite app_nil_r, <- app_assoc. reflexivity.
  - exists (join sep (x :: before) ++ sep), (sep ++ join sep (y :: after)).
    rewrite join_app by discriminate. rewrite join_cons2.
    rewrite <- !app_assoc. reflexivity.
Qed.

(** The outcome of the whole scan, seen from a reachable state. *)
Lemma migrate_from_reachable (content : str) (st : state) :
  reachable (split nl content) st ->
  exists more,
    migrate_logger_fields content = Done (join [nl] (new_lines st ++ more)).
Proof.
  intros Hr. destruct (reachable_prefix _ _ Hr) as (st' & Hm & _ & more & He).
  exists more. unfold migrate_logger_fields. rewrite Hm. simpl.
  rewrite He. reflexivity.
Qed.

Lemma migrate_at_end (content : str) (st : state) :
  reachable (split nl content) st ->
  i st = length (split nl content) ->
  migrate_logger_fields content = Done (join [nl] (new_lines st)).
Proof.
  intros Hr Hi. unfold migrate_logger_fields.
  rewrite <- (reachable_run _ _ Hr (length (split nl content))) by lia.
  destruct (length (split nl content)) eqn:E; simpl;
    rewrite Hi, ?E, Nat.ltb_irrefl; reflexivity.
Qed.

(** ** The lines of the document in the result *)

Section Subsequences.

Lemma subseq_nil_l (b : list str) : subseq [] b.
Proof. induction b; constructor; assumption. Qed.

Lemma subseq_refl (a : list str) : subseq a a.
Proof. induction a; constructor; assumption. Qed.

Lemma subseq_app (a b c d : list str) :
  subseq a b -> subseq c d -> subseq (a ++ c) (b ++ d).
Proof.
  intros Hab Hcd. induction Hab; simpl; try constructor; assumption.
Qed.

Lemma is_subseq_skip_from_tail (b : list str) :
  (forall a x, is_subseq (x :: a) b = true -> is_subseq a b = true) ->
  forall a y, is_subseq a b = true -> is_subseq a (y :: b) = true.
Proof.
  intros Htail [|z a] y H; [reflexivity|].
  simpl. destruct (str_eq_dec z y); [|assumption].
  eapply Htail. eassumption.
Qed.

Lemma is_subseq_tail (b a : list str) (x : str) :
  is_subseq (x :: a) b = true -> is_subseq a b = true.
Proof.
  revert a x. induction b as [|y b IH]; intros a x H; [discriminate|].
  apply (is_subseq_skip_from_tail b IH).
  simpl in H. destruct (str_eq_dec x y); [assumption|].
  eapply IH. eassumption.
Qed.

Lemma is_subseq_complete (a b : list str) : subseq a b -> is_subseq a b = true.
Proof.
  induction 1 as [|x a b H IH|y a b H IH].
  - reflexivity.
  - simpl. destruct (str_eq_dec x x); [assumption | congruence].
  - apply is_subseq_skip_from_tail; [|assumption].
    intros a' x. apply is_subseq_tail.
Qed.

Lemma is_subseq_sound (a b : list str) : is_subseq a b = true -> subseq a b.
Proof.
  revert a. induction b as [|y b IH]; intros [|x a] H;
    try discriminate; try apply subseq_nil_l.
  simpl in H. destruct (str_eq_dec x y) as [->|].
  - constructor. apply IH. assumption.
  - constructor. apply IH. assumption.
Qed.

End Subsequences.

Lemma concat_split_lines (ls : list str) :
  Forall (fun l => ~ In nl l) ls -> concat (map (split nl) ls) = ls.
Proof.
  induction 1 as [|l ls Hl H IH]; [reflexivity|].
  simpl. rewrite (split_line l Hl), IH. reflexivity.
Qed.

Lemma split_todo_block (blk : list str) :
  blk <> [] -> Forall (fun l => ~ In nl l) blk ->
  split nl (todo_block blk) = todo_marker :: blk.
Proof.
  intros Hne Hall. unfold todo_block.
  change ([nl] ++ join [nl] blk) with (nl :: join [nl] blk).
  rewrite split_app, (split_join blk Hne), (concat_split_lines blk Hall).
  rewrite split_line; [reflexivity|].
  vm_compute. intuition discriminate.
Qed.

Lemma firstn_plus (A : Type) (l : list A) (a b : nat) :
  firstn (a + b) l = firstn a l ++ firstn b (skipn a l).
Proof.
  revert l. induction a as [|a IH]; intros [|x l]; simpl;
    rewrite ?firstn_nil; try reflexivity.
  f_equal. apply IH.
Qed.

Lemma Forall_firstn (A : Type) (P : A -> Prop) (n : nat) (l : list A) :
  Forall P l -> Forall P (firstn n l).
Proof.
  intros H. rewrite <- (firstn_skipn n l) in H.
  apply Forall_app in H. tauto.
Qed.

Lemma Forall_skipn (A : Type) (P : A -> Prop) (n : nat) (l : list A) :
  Forall P l -> Forall P (skipn n l).
Proof.
  intros H. rewrite <- (firstn_skipn n l) in H.
  apply Forall_app in H. tauto.
Qed.

(** One iteration keeps the lines it goes over, in their order, among the
    lines it emits. *)
Lemma emitted_keeps_lines (lines : list str) (n : nat) (line : str)
  (out : list str) :
  Forall (fun l => ~ In nl l) lines ->
  nth_error lines n = Some line ->
  subseq (firstn n lines) (concat (map (split nl) out)) ->
  subseq (firstn (fst (emitted lines n line out)) lines)
         (concat (map (split nl) (snd (emitted lines n line out)))).
Proof.
  intros Hall Hn Hsub.
  assert (Hline : ~ In nl line).
  { rewrite Forall_forall in Hall. apply Hall.
    eapply nth_error_In. eassumption. }
  unfold emitted. destruct (contains fields_marker line); cbn [fst snd].
  - set (k := open_run (brace_delta line) (skipn (S n) lines)).
    rewrite firstn_plus, (firstn_succ_nth _ _ _ _ Hn), <- app_assoc.
    rewrite map_app, concat_app. cbn [map concat].
    rewrite app_nil_r, split_todo_block.
    + apply subseq_app; [assumption|]. simpl. constructor. apply subseq_refl.
    + discriminate.
    + constructor; [assumption|].
      apply Forall_firstn, Forall_skipn. assumption.
  - rewrite (firstn_succ_nth _ _ _ _ Hn).
    rewrite map_app, concat_app. cbn [map concat].
    rewrite app_nil_r, (split_line line Hline).
    apply subseq_app; [|apply subseq_refl].
    destruct (matched (re_match logcall_re line)); [|assumption].
    destruct (negb (recently_declared out)); [|assumption].
    rewrite map_app, concat_app. cbn [map concat].
    rewrite <- (app_nil_r (firstn n lines)).
    apply subseq_app; [assumption|]. apply subseq_nil_l.
Qed.

(** C10.  The scan only inserts: the lines of the document are, in their
    order, among the lines of the result. *)
Theorem input_lines_survive_in_order (content : str) :
  exists out,
    migrate_logger_fields content = Done out
    /\ is_subseq (split nl content) (split nl out) = true.
Proof.
  unfold migrate_logger_fields. set (lines := split nl content).
  destruct (main_loop_rule lines
              (fun st => subseq (firstn (i st) lines)
                           (concat (map (split nl) (new_lines st)))))
    with (fuel := length lines) (st := initial) as (st & Hr & Hp & Hl).
  - intros st st' Hp Hi Hb.
    destruct (index_in_range lines _ Hi) as (line & Hn & _).
    rewrite (body_run lines st line Hn) in Hb. injection Hb as <-.
    cbn [i new_lines]. apply emitted_keeps_lines;
      [apply split_lines | assumption | assumption].
  - simpl. constructor.
  - unfold initial; cbn [i]; lia.
  - rewrite Hr. simpl. eexists. split; [reflexivity|].
    rewrite firstn_all2 in Hp by assumption.
    apply is_subseq_complete.
    destruct (new_lines st) as [|x out] eqn:E.
    + simpl in Hp. inversion Hp as [Hnil| |].
      exfalso. eapply split_nonempty. symmetry. exact Hnil.
    + rewrite split_join by discriminate. assumption.
Qed.

(** ** The inserted declaration *)

Lemma reachable_next (lines : list str) (st : state) (line : str) :
  reachable lines st ->
  nth_error lines (i st) = Some line ->
  reachable lines
    (mkState (fst (emitted lines (i st) line (new_lines st)))
             (snd (emitted lines (i st) line (new_lines st)))
             (record_function line (logger_declared st))).
Proof.
  intros Hr Hn. eapply reach_step; [exact Hr|].
  constructor; [|apply body_run; assumption].
  apply nth_error_Some. congruence.
Qed.

(** C3, as the code has it.  When the scan comes to a line without the
    marker that matches the logging-call pattern, it emits the line
    unchanged, and immediately before it the synthesized declaration line if
    and only if none of the last ten emitted entries holds a declaration;
    an entry is a line, or a marker with its whole block. *)
Theorem declaration_inserted_iff_not_recent
  (content : str) (st : state) (line : str) :
  reachable (split nl content) st ->
  nth_error (split nl content) (i st) = Some line ->
  contains fields_marker line = false ->
  matched (re_match logcall_re line) = true ->
  exists more,
    migrate_logger_fields content
    = Done (join [nl]
              (new_lines st
               ++ (if recently_declared (new_lines st) then []
                   else [declaration_line])
               ++ line :: more)).
Proof.
  intros Hr Hn Hm Hc.
  destruct (migrate_from_reachable _ _ (reachable_next _ _ _ Hr Hn))
    as (more & Hout).
  exists more. rewrite Hout. cbn [new_lines]. unfold emitted.
  rewrite Hm, Hc. cbn [snd].
  destruct (recently_declared (new_lines st)); simpl;
    rewrite <- !app_assoc; reflexivity.
Qed.

Lemma declaration_inserted_iff_not_recent_witness :
  exists more,
    migrate_logger_fields
      (join [nl] [lit "func f() {"; tab :: lit "logger.Info(m)";
                  tab :: lit "logger.Warn(m)"; lit "}"])
    = Done (join [nl]
              ([lit "func f() {"] ++ [declaration_line]
               ++ (tab :: lit "logger.Info(m)") :: more)).
Proof.
  apply (declaration_inserted_iff_not_recent
           (join [nl] [lit "func f() {"; tab :: lit "logger.Info(m)";
                       tab :: lit "logger.Warn(m)"; lit "}"])
           (mkState 1 [lit "func f() {"] (empty_set str))
           (tab :: lit "logger.Info(m)")).
  - eapply reach_step; [apply reach_initial|].
    constructor; [vm_compute; lia | reflexivity].
  - reflexivity.
  - reflexivity.
  - reflexivity.
Defined.

(** C3, as stated, fails.  A block of two lines whose first line holds a
    declaration is one entry of the emitted list: nine lines later it is
    still among the last ten entries, although the last ten lines of the
    output hold no declaration.  No declaration line is inserted before the
    logging call. *)
Lemma lookback_counts_entries_not_lines :
  let content :=
    join [nl]
      ([lit "cfg := logger.Fields{ // logger := sdklog.NewLogger"; lit "}"]
       ++ repeat (lit "x") 9 ++ [tab :: lit "logger.Error(e)"]) in
  let before :=
    [todo_marker; lit "cfg := logger.Fields{ // logger := sdklog.NewLogger";
     lit "}"] ++ repeat (lit "x") 9 in
  exists out,
    migrate_logger_fields content = Done out
    /\ split nl out = before ++ [tab :: lit "logger.Error(e)"]
    /\ matched (re_match logcall_re (tab :: lit "logger.Error(e)")) = true
    /\ existsb (contains declaration) (last_n 10 before) = false
    /\ last before [] <> declaration_line
    /\ ~ In declaration_line (split nl out).
Proof.
  eexists. split; [vm_compute; reflexivity|].
  split; [vm_compute; reflexivity|].
  split; [reflexivity|].
  split; [vm_compute; reflexivity|].
  split; [vm_compute; discriminate|].
  vm_compute. intuition discriminate.
Qed.

(** ** Logging calls at column 0 *)

Lemma logcall_needs_leading_space (line : str) :
  starts_at_column_0 line = true -> re_match logcall_re line = None.
Proof.
  destruct line as [|c line]; [reflexivity|].
  unfold starts_at_column_0. intros H. apply negb_true_iff in H.
  unfold re_match, match_at, logcall_re, Plus. cbn [rx Nat.eqb].
  rewrite H. reflexivity.
Qed.

(** C9.  A line that starts at column 0 does not match the logging-call
    pattern, and when the scan comes to it no declaration line is inserted:
    the next entry emitted is the line itself or, if the line holds the
    marker, the marker with the block that the line opens. *)
Theorem no_declaration_at_column_0
  (content : str) (st : state) (line : str) :
  reachable (split nl content) st ->
  nth_error (split nl content) (i st) = Some line ->
  starts_at_column_0 line = true ->
  re_match logcall_re line = None
  /\ exists e more,
       migrate_logger_fields content
       = Done (join [nl] (new_lines st ++ e :: more))
       /\ (e = line \/ exists rest, e = todo_block (line :: rest)).
Proof.
  intros Hr Hn H0.
  pose proof (logcall_needs_leading_space line H0) as Hc.
  split; [assumption|].
  destruct (migrate_from_reachable _ _ (reachable_next _ _ _ Hr Hn))
    as (more & Hout).
  cbn [new_lines] in Hout. unfold emitted in Hout. rewrite Hc in Hout.
  destruct (contains fields_marker line); cbn [snd matched] in Hout;
    rewrite <- app_assoc in Hout.
  - eexists. exists more. split; [exact Hout|]. right. eexists. reflexivity.
  - exists line, more. split; [exact Hout|]. left. reflexivity.
Qed.

Lemma no_declaration_at_column_0_witness :
  re_match logcall_re (lit "logger.Info(m)") = None
  /\ exists e more,
       migrate_logger_fields
         (join [nl] [lit "var x = 1"; lit "logger.Info(m)"])
       = Done (join [nl] ([lit "var x = 1"] ++ e :: more))
       /\ (e = lit "logger.Info(m)"
           \/ exists rest, e = todo_block (lit "logger.Info(m)" :: rest)).
Proof.
  apply (no_declaration_at_column_0
           (join [nl] [lit "var x = 1"; lit "logger.Info(m)"])
           (mkState 1 [lit "var x = 1"] (empty_set str))
           (lit "logger.Info(m)")).
  - eapply reach_step; [apply reach_initial|].
    constructor; [vm_compute; lia | reflexivity].
  - reflexivity.
  - reflexivity.
Defined.

(** ** Searching *)

Section Searching.

Lemma search_needs_literal (w : str) (r : regex) (s : str) (pos : nat) :
  contains w s = false -> search_from (Seq (Lit w) r) pos s = None.
Proof.
  revert pos. induction s as [|c s IH]; intros pos H; simpl in H;
    apply orb_false_iff in H; destruct H as [Hw Hs];
    unfold search_from; fold search_from; unfold match_at; cbn [rx];
    rewrite Hw; [reflexivity|].
  apply IH. assumption.
Qed.

Lemma star_greedy_step (p : ascii -> bool) (pos : nat) (s : str) (g : caps)
  (k : nat -> str -> caps -> option cursor) :
  rx (Star true p) pos s g k =
  match s with
  | c :: s' =>
      if p c then
        match rx (Star true p) (S pos) s' g k with
        | Some x => Some x
        | None => k pos s g
        end
      else k pos s g
  | [] => k pos s g
  end.
Proof. destruct s; reflexivity. Qed.

(** When what follows cannot start with a character of the class, a greedy
    repetition takes all the characters of the class. *)
Lemma star_greedy_max (p : ascii -> bool) (g : caps)
  (k : nat -> str -> caps -> option cursor) :
  (forall pos c s, p c = true -> k pos (c :: s) g = None) ->
  forall s pos,
    rx (Star true p) pos s g k
    = k (pos + run_length p s) (skip_while p s) g.
Proof.
  intros Hk. induction s as [|c s IH]; intros pos;
    rewrite star_greedy_step; cbn [skip_while run_length].
  - rewrite Nat.add_0_r. reflexivity.
  - destruct (p c) eqn:E.
    + rewrite IH, Nat.add_succ_r. cbn [Nat.add].
      destruct (k (S (pos + run_length p s)) (skip_while p s) g);
        [reflexivity|]. apply Hk. assumption.
    + rewrite Nat.add_0_r. reflexivity.
Qed.

Lemma star_greedy_accepts (p : ascii -> bool) (pos : nat) (s : str) (g : caps) :
  rx (Star true p) pos s g accept <> None.
Proof.
  revert pos. induction s as [|c s IH]; intros pos;
    rewrite star_greedy_step; [discriminate|].
  destruct (p c); [|discriminate].
  specialize (IH (S pos)).
  destruct (rx (Star true p) (S pos) s g accept); [discriminate|congruence].
Qed.

Lemma digit_not_newline (c : ascii) : is_digit c = true -> Ascii.eqb c nl = false.
Proof.
  intros H. destruct (Ascii.eqb_spec c nl) as [->|]; [discriminate|reflexivity].
Qed.

Lemma digit_not_point (c : ascii) :
  is_digit c = true -> Ascii.eqb "."%char c = false.
Proof.
  intros H. destruct (Ascii.eqb_spec "."%char c) as [<-|];
    [discriminate|reflexivity].
Qed.

Lemma rx_seq (r1 r2 : regex) (pos : nat) (s : str) (g : caps)
  (k : nat -> str -> caps -> option cursor) :
  rx (Seq r1 r2) pos s g k
  = rx r1 pos s g (fun pos' s' g' => rx r2 pos' s' g' k).
Proof. reflexivity. Qed.

Lemma rx_cls (p : ascii -> bool) (pos : nat) (s : str) (g : caps)
  (k : nat -> str -> caps -> option cursor) :
  rx (Cls p) pos s g k
  = match s with
    | c :: s' => if p c then k (S pos) s' g else None
    | [] => None
    end.
Proof. reflexivity. Qed.

Lemma rx_lit (w : str) (pos : nat) (s : str) (g : caps)
  (k : nat -> str -> caps -> option cursor) :
  rx (Lit w) pos s g k
  = if startswith w s then k (pos + length w) (skipn (length w) s) g
    else None.
Proof. reflexivity. Qed.

Lemma rx_group (n : nat) (r : regex) (pos : nat) (s : str) (g : caps)
  (k : nat -> str -> caps -> option cursor) :
  rx (Group n r) pos s g k
  = rx r pos s g
      (fun pos' s' g' => k pos' s' ((n, firstn (pos' - pos) s) :: g')).
Proof. reflexivity. Qed.

Lemma rx_bol (s : str) (g : caps) (k : nat -> str -> caps -> option cursor) :
  rx Bol 0 s g k = k 0 s g.
Proof. reflexivity. Qed.

Lemma rx_eol (pos : nat) (s : str) (g : caps)
  (k : nat -> str -> caps -> option cursor) :
  rx Eol pos s g k
  = match s with
    | [] => k pos s g
    | c :: [] => if Ascii.eqb c nl then k pos s g else None
    | _ :: _ :: _ => None
    end.
Proof. reflexivity. Qed.

(** ^\d+$ matches the texts of digits, with or without a final newline. *)
Lemma int_re_matched (v : str) :
  matched (re_match int_re v) =
  match v with
  | [] => false
  | c :: v' =>
      is_digit c &&
      match skip_while is_digit v' with
      | [] => true
      | x :: [] => Ascii.eqb x nl
      | _ :: _ :: _ => false
      end
  end.
Proof.
  unfold re_match, match_at, int_re, Plus.
  rewrite rx_seq, rx_bol, !rx_seq, rx_cls.
  destruct v as [|c v]; [reflexivity|].
  destruct (is_digit c); [|reflexivity]. cbn [andb].
  rewrite star_greedy_max.
  - rewrite rx_eol. destruct (skip_while is_digit v) as [|x [|y t]];
      [reflexivity | | reflexivity].
    destruct (Ascii.eqb x nl); reflexivity.
  - intros pos d s Hd. rewrite rx_eol. destruct s; [|reflexivity].
    rewrite (digit_not_newline d Hd). reflexivity.
Qed.

(** ^\d+\.\d+ matches the texts that start with digits, a point and a
    digit. *)
Lemma float_re_matched (v : str) :
  matched (re_match float_re v) = starts_with_decimal v.
Proof.
  unfold re_match, match_at, float_re, Plus, starts_with_decimal.
  rewrite rx_seq, rx_bol, !rx_seq, rx_cls.
  destruct v as [|c v]; [reflexivity|].
  destruct (is_digit c); [|reflexivity]. cbn [andb].
  rewrite star_greedy_max.
  - rewrite rx_seq, rx_lit.
    cbn [lit list_ascii_of_string startswith length skipn].
    destruct (skip_while is_digit v) as [|d t]; [reflexivity|].
    rewrite Ascii.eqb_sym. destruct (Ascii.eqb d "."); cbn [andb];
      [|destruct t; reflexivity].
    rewrite rx_seq, rx_cls.
    destruct t as [|e t]; [reflexivity|].
    destruct (is_digit e); [|reflexivity].
    match goal with
    | |- context [rx (Star true is_digit) ?q t [] accept] =>
        pose proof (star_greedy_accepts is_digit q t []) as Ha;
        destruct (rx (Star true is_digit) q t [] accept) as [[[? ?] ?]|]
    end; [reflexivity | congruence].
  - intros pos d s Hd. rewrite rx_seq, rx_lit.
    cbn [lit list_ascii_of_string startswith].
    rewrite (digit_not_point d Hd). reflexivity.
Qed.

End Searching.

(** ** The fields of a block *)

Lemma fold_left_append (A : Type) (f : A -> str) (l : list A) (init : list str) :
  fold_left (fun fields x => fields ++ [f x]) l init = init ++ map f l.
Proof.
  revert init. induction l as [|x l IH]; intros init; simpl.
  - rewrite app_nil_r. reflexivity.
  - rewrite IH, <- app_assoc. reflexivity.
Qed.

(** [all_fields], with the appends written as one list. *)
Lemma all_fields_eq (m : rmatch) :
  all_fields m =
  [sdklog_operation (group m 2)]
  ++ match re_search namespace_re (group m 3) with
     | Some nm => [sdklog_call "String" (lit "namespace") (strip (group nm 1))]
     | None => []
     end
  ++ match re_search source_re (group m 3) with
     | Some sm => [sdklog_call "String" (lit "source") (strip (group sm 1))]
     | None => []
     end
  ++ match re_search error_re (group m 3) with
     | Some em => [sdklog_error (strip (group em 1))]
     | None => []
     end
  ++ match re_search additional_re (group m 3) with
     | Some am => map kv_field (findall2 kv_re (group am 1))
     | None => []
     end.
Proof.
  unfold all_fields. f_equal.
  destruct (re_search namespace_re (group m 3));
    destruct (re_search source_re (group m 3));
    destruct (re_search error_re (group m 3));
    destruct (re_search additional_re (group m 3));
    rewrite ?fold_left_append; simpl; rewrite ?app_nil_r; reflexivity.
Qed.

(** ** The kinds of the catch-all values *)

Lemma lstrip_head (s r : str) (c : ascii) :
  lstrip s = c :: r -> is_space c = false.
Proof.
  induction s as [|x s IH]; simpl; [discriminate|].
  destruct (is_space x) eqn:E; [assumption|].
  intros H. injection H as <- _. assumption.
Qed.

(** A stripped text does not end with a whitespace character. *)
Lemma strip_last (s a : str) (c : ascii) :
  strip s = a ++ [c] -> is_space c = false.
Proof.
  unfold strip. intros H.
  apply (f_equal (@rev ascii)) in H.
  rewrite rev_involutive, rev_app_distr in H. simpl in H.
  eapply lstrip_head. eassumption.
Qed.

Lemma skip_while_suffix (p : ascii -> bool) (s : str) :
  exists pre, s = pre ++ skip_while p s.
Proof.
  induction s as [|c s (pre & IH)]; [exists []; reflexivity|].
  simpl. destruct (p c); [|exists []; reflexivity].
  exists (c :: pre). simpl. f_equal. assumption.
Qed.

Lemma forallb_skip_while (p : ascii -> bool) (s : str) :
  forallb p s = match skip_while p s with [] => true | _ :: _ => false end.
Proof.
  induction s as [|c s IH]; [reflexivity|].
  simpl. destruct (p c); [assumption | reflexivity].
Qed.

(** On a stripped value, ^\d+$ matches the texts of digits. *)
Lemma int_re_stripped (value : str) :
  matched (re_match int_re (strip value)) = all_digits (strip value).
Proof.
  rewrite int_re_matched. unfold all_digits.
  destruct (strip value) as [|c v] eqn:Es; [reflexivity|].
  cbn [forallb]. rewrite (forallb_skip_while is_digit v).
  destruct (skip_while_suffix is_digit v) as (pre & Hpre).
  destruct (skip_while is_digit v) as [|x [|y t]]; try reflexivity.
  rewrite Hpre in Es.
  change (c :: pre ++ [x]) with ((c :: pre) ++ [x]) in Es.
  apply strip_last in Es.
  destruct (Ascii.eqb_spec x nl) as [->|]; [discriminate|reflexivity].
Qed.

(** The field of a pair is decided by the kind of its stripped value. *)
Lemma kv_field_kind (key value : str) :
  kv_field (key, value) = sdklog_call (kind (strip value)) key (strip value).
Proof.
  unfold kv_field, kind. cbn [fst snd].
  destruct (startswith [dq] (strip value) || startswith [sq] (strip value));
    [reflexivity|].
  rewrite int_re_stripped.
  destruct (all_digits (strip value)); [reflexivity|].
  rewrite float_re_matched.
  destruct (starts_with_decimal (strip value)); reflexivity.
Qed.

(** On a match object whose third group holds a whole catch-all map, the
    pairs count: 42, ratio: 3.14 and name: x (quoted)
    give, in this order, an Int field, a Float64 field and a String field,
    whether the map is closed by the parenthesis of the call, on the same
    line or on the next one, or followed by another attribute; and the field of every pair is chosen by [kind], the
    first of the rules that applies to its stripped value: a leading quote
    gives String, digits alone give Int, digits with a point and a digit at
    the start give Float64, anything else gives String. *)
Lemma catch_all_pairs_are_typed :
  let pairs :=
    lit "{" ++ quoted (lit "count") ++ lit ": 42, " ++ quoted (lit "ratio")
    ++ lit ": 3.14, " ++ quoted (lit "name") ++ lit ": " ++ quoted (lit "x")
    ++ lit "}" in
  let typed :=
    [sdklog_call "Int" (lit "count") (lit "42");
     sdklog_call "Float64" (lit "ratio") (lit "3.14");
     sdklog_call "String" (lit "name") (quoted (lit "x"))] in
  all_fields
    (mkMatch 0 0 []
       [(3, lit ", Additional: map[string]interface{}" ++ pairs ++ lit "})");
        (2, lit "load"); (1, lit "cfg")])
  = sdklog_operation (lit "load") :: typed
  /\ all_fields
       (mkMatch 0 0 []
          [(3, lit ", Additional: map[string]interface{}" ++ pairs
               ++ lit ", Source: src");
           (2, lit "load"); (1, lit "cfg")])
     = sdklog_operation (lit "load")
       :: sdklog_call "String" (lit "source") (lit "src") :: typed
  /\ all_fields
       (mkMatch 0 0 []
          [(3, lit "," ++ [nl; tab; tab]
               ++ lit "Additional: map[string]interface{}" ++ pairs
               ++ lit "," ++ [nl; tab] ++ lit "})");
           (2, lit "load"); (1, lit "cfg")])
     = sdklog_operation (lit "load") :: typed
  /\ (forall key value,
        kv_field (key, value)
        = sdklog_call (kind (strip value)) key (strip value)).
Proof.
  cbv zeta. split; [vm_compute; reflexivity|].
  split; [vm_compute; reflexivity|].
  split; [vm_compute; reflexivity|].
  apply kv_field_kind.
Qed.

(** ** The matcher finds matches *)

Section Soundness.

Lemma star_lazy_step (p : ascii -> bool) (pos : nat) (s : str) (g : caps)
  (k : nat -> str -> caps -> option cursor) :
  rx (Star false p) pos s g k =
  match k pos s g with
  | Some x => Some x
  | None =>
      match s with
      | c :: s' => if p c then rx (Star false p) (S pos) s' g k else None
      | [] => None
      end
  end.
Proof. destruct s; reflexivity. Qed.

Lemma star_sound (greedy : bool) (p : ascii -> bool) (g : caps)
  (k : nat -> str -> caps -> option cursor) (x : cursor) :
  forall s pos,
    rx (Star greedy p) pos s g k = Some x ->
    exists c ahead,
      s = c ++ ahead /\ forallb p c = true /\ k (pos + length c) ahead g = Some x.
Proof.
  assert (Hhere : forall s pos, k pos s g = Some x ->
            exists c ahead, s = c ++ ahead /\ forallb p c = true
                            /\ k (pos + length c) ahead g = Some x).
  { intros s pos H. exists [], s. simpl. rewrite Nat.add_0_r. auto. }
  assert (Hnext : forall c s pos, p c = true ->
            (exists c' ahead, s = c' ++ ahead /\ forallb p c' = true
                              /\ k (S pos + length c') ahead g = Some x) ->
            exists c' ahead, c :: s = c' ++ ahead /\ forallb p c' = true
                             /\ k (pos + length c') ahead g = Some x).
  { intros c s pos Hc (c' & ahead & -> & Hp & Hk).
    exists (c :: c'), ahead. simpl. rewrite Hc, Hp, Nat.add_succ_r. auto. }
  destruct greedy.
  - induction s as [|c s IH]; intros pos; rewrite star_greedy_step.
    + apply Hhere.
    + destruct (p c) eqn:Hc; [|apply Hhere].
      destruct (rx (Star true p) (S pos) s g k) eqn:E.
      * intros H. injection H as ->. apply Hnext; auto.
      * apply Hhere.
  - induction s as [|c s IH]; intros pos; rewrite star_lazy_step.
    + destruct (k pos [] g) eqn:E; [|discriminate].
      intros H. injection H as ->. apply Hhere. assumption.
    + destruct (k pos (c :: s) g) eqn:E.
      * intros H. injection H as ->. apply Hhere. assumption.
      * destruct (p c) eqn:Hc; [|discriminate].
        intros H. apply Hnext; auto.
Qed.

(** Whatever the matcher hands to its continuation is a match of the
    pattern in the declarative reading. *)
Lemma rx_sound (r : regex) :
  forall pos s g k x,
    rx r pos s g k = Some x ->
    exists c ahead g',
      s = c ++ ahead /\ matches r pos c ahead g g'
      /\ k (pos + length c) ahead g' = Some x.
Proof.
  induction r as [w|p|r1 IH1 r2 IH2|r1 IH1 r2 IH2|greedy p|n r1 IH1|r1 IH1| |];
    intros pos s g k x H.
  - rewrite rx_lit in H. destruct (startswith w s) eqn:E; [|discriminate].
    exists w, (skipn (length w) s), g.
    split; [apply startswith_split; assumption|].
    split; [constructor | assumption].
  - rewrite rx_cls in H. destruct s as [|c s]; [discriminate|].
    destruct (p c) eqn:E; [|discriminate].
    exists [c], s, g. simpl. rewrite Nat.add_1_r.
    split; [reflexivity|]. split; [constructor; assumption | assumption].
  - rewrite rx_seq in H.
    apply IH1 in H. destruct H as (c1 & ahead1 & g1 & -> & Hm1 & H).
    apply IH2 in H. destruct H as (c2 & ahead & g2 & -> & Hm2 & H).
    exists (c1 ++ c2), ahead, g2. rewrite length_app, Nat.add_assoc, app_assoc.
    split; [reflexivity|]. split; [|assumption].
    econstructor; eassumption.
  - cbn [rx] in H. destruct (rx r1 pos s g k) eqn:E.
    + injection H as ->. apply IH1 in E.
      destruct E as (c & ahead & g' & -> & Hm & Hk).
      exists c, ahead, g'. split; [reflexivity|].
      split; [apply matches_alt_l; assumption | assumption].
    + apply IH2 in H. destruct H as (c & ahead & g' & -> & Hm & Hk).
      exists c, ahead, g'. split; [reflexivity|].
      split; [apply matches_alt_r; assumption | assumption].
  - apply star_sound in H. destruct H as (c & ahead & -> & Hp & Hk).
    exists c, ahead, g. split; [reflexivity|].
    split; [constructor; assumption | assumption].
  - cbn [rx] in H. apply IH1 in H.
    destruct H as (c & ahead & g' & -> & Hm & Hk).
    replace (pos + length c - pos) with (length c) in Hk by lia.
    rewrite firstn_app, Nat.sub_diag, firstn_all in Hk.
    simpl in Hk. rewrite app_nil_r in Hk.
    exists c, ahead, ((n, c) :: g'). split; [reflexivity|].
    split; [constructor; assumption | assumption].
  - cbn [rx] in H.
    destruct (rx r1 pos s g (fun pos' s' g' => Some (pos', s', g')))
      as [[[e s'] g']|] eqn:E; [|discriminate].
    apply IH1 in E. destruct E as (c & ahead & g1 & -> & Hm & Hk).
    injection Hk as _ <- <-.
    exists [], (c ++ ahead), g1. simpl. rewrite Nat.add_0_r.
    split; [reflexivity|]. split; [|assumption].
    econstructor; [reflexivity | eassumption].
  - cbn [rx] in H. destruct pos; [|discriminate]. simpl in H.
    exists [], s, g. simpl. split; [reflexivity|].
    split; [constructor | assumption].
  - rewrite rx_eol in H. exists [], s, g. simpl. rewrite Nat.add_0_r.
    split; [reflexivity|].
    destruct s as [|c [|d s]]; try discriminate.
    + split; [constructor; auto | assumption].
    + destruct (Ascii.eqb_spec c nl) as [->|]; [|discriminate].
      split; [constructor; auto | assumption].
Qed.

Lemma match_at_sound (r : regex) (pos : nat) (s : str) (m : rmatch) :
  match_at r pos s = Some m ->
  exists c,
    s = c ++ m_rest m /\ m_start m = pos /\ m_end m = pos + length c
    /\ matches r pos c (m_rest m) [] (m_groups m).
Proof.
  unfold match_at. destruct (rx r pos s [] accept) as [[[e s'] g]|] eqn:E;
    [|discriminate].
  intros H. injection H as <-. apply rx_sound in E.
  destruct E as (c & ahead & g' & -> & Hm & Hk).
  unfold accept in Hk. injection Hk as <- <- <-.
  exists c. simpl. auto.
Qed.

Lemma search_from_sound (r : regex) (s : str) :
  forall pos m,
    search_from r pos s = Some m ->
    exists a c,
      s = a ++ c ++ m_rest m /\ m_start m = pos + length a
      /\ m_end m = m_start m + length c
      /\ matches r (m_start m) c (m_rest m) [] (m_groups m).
Proof.
  assert (Hhere : forall pos s m, match_at r pos s = Some m ->
            exists a c,
              s = a ++ c ++ m_rest m /\ m_start m = pos + length a
              /\ m_end m = m_start m + length c
              /\ matches r (m_start m) c (m_rest m) [] (m_groups m)).
  { intros pos t m E. apply match_at_sound in E.
    destruct E as (c & Hs & Hst & Hen & Hm).
    exists [], c. simpl. rewrite Hst, Nat.add_0_r.
    split; [assumption|]. split; [reflexivity|]. split; assumption. }
  induction s as [|x s IH]; intros pos m H; simpl in H;
    destruct (match_at r pos _) eqn:E.
  - injection H as ->. eapply Hhere. eassumption.
  - discriminate.
  - injection H as ->. eapply Hhere. eassumption.
  - apply IH in H. destruct H as (a & c & Hs & Hst & Hen & Hm).
    exists (x :: a), c. simpl. rewrite Hs, Hst, Nat.add_succ_r.
    split; [reflexivity|]. split; [reflexivity|].
    rewrite Hst, Nat.add_succ_l in Hen, Hm. split; assumption.
Qed.

Lemma search_advancing_sound (r : regex) (s : str) (pos : nat) (m : rmatch) :
  search_advancing r pos s = Some m ->
  pos < m_end m
  /\ exists a c,
       s = a ++ c ++ m_rest m /\ m_start m = pos + length a
       /\ m_end m = m_start m + length c
       /\ matches r (m_start m) c (m_rest m) [] (m_groups m).
Proof.
  unfold search_advancing.
  destruct (rx r pos s [] (accept_after pos)) as [[[e s'] g]|] eqn:E.
  - intros H. injection H as <-. apply rx_sound in E.
    destruct E as (c & ahead & g' & -> & Hm & Hk).
    unfold accept_after in Hk.
    destruct (pos + length c =? pos) eqn:Ep; [discriminate|].
    injection Hk as <- <- <-. apply Nat.eqb_neq in Ep. simpl.
    split; [lia|]. exists [], c. simpl. rewrite Nat.add_0_r. auto.
  - destruct s as [|x s]; [discriminate|]. intros H.
    apply search_from_sound in H. destruct H as (a & c & Hs & Hst & Hen & Hm).
    split; [lia|]. exists (x :: a), c. simpl.
    rewrite Hs, Hst, Nat.add_succ_r.
    split; [reflexivity|]. split; [reflexivity|].
    rewrite Hst, Nat.add_succ_l in Hen, Hm. split; assumption.
Qed.

Lemma finditer_search_sound (r : regex) (must_advance : bool) (s : str)
  (pos : nat) (m : rmatch) :
  (if must_advance then search_advancing r pos s else search_from r pos s)
  = Some m ->
  (must_advance = true -> pos < m_end m)
  /\ exists a c,
       s = a ++ c ++ m_rest m /\ m_start m = pos + length a
       /\ m_end m = m_start m + length c
       /\ matches r (m_start m) c (m_rest m) [] (m_groups m).
Proof.
  destruct must_advance; intros H.
  - apply search_advancing_sound in H. destruct H as [Hlt H]. auto.
  - apply search_from_sound in H. split; [discriminate | assumption].
Qed.

(** The matches of [finditer] lie in the text, one after the other. *)
Lemma finditer_from_sound (r : regex) (fuel : nat) :
  forall must_advance pre s,
    Forall (located r (pre ++ s))
      (finditer_from fuel r must_advance (length pre) s)
    /\ in_order (length pre)
         (finditer_from fuel r must_advance (length pre) s) = true.
Proof.
  induction fuel as [|fuel IH]; intros must_advance pre s; simpl; [auto|].
  destruct (if must_advance then search_advancing r (length pre) s
            else search_from r (length pre) s) as [m|] eqn:E; [|auto].
  apply finditer_search_sound in E.
  destruct E as (_ & a & c & Hs & Hst & Hen & Hm).
  assert (Hloc : located r (pre ++ s) m).
  { exists (pre ++ a), c. rewrite Hs, <- app_assoc, length_app.
    repeat split; try assumption; lia. }
  assert (Hle : (length pre <=? m_start m) && (m_start m <=? m_end m) = true).
  { apply andb_true_intro. split; apply Nat.leb_le; lia. }
  destruct (IH (m_end m =? m_start m) (pre ++ a ++ c) (m_rest m))
    as (Hall & Hord).
  replace (length (pre ++ a ++ c)) with (m_end m) in *
    by (rewrite !length_app; lia).
  replace ((pre ++ a ++ c) ++ m_rest m) with (pre ++ s) in Hall
    by (rewrite Hs, <- !app_assoc; reflexivity).
  split; [constructor; assumption|].
  cbn [in_order]. rewrite Hle, Hord. reflexivity.
Qed.

Lemma finditer_sound (r : regex) (s : str) :
  Forall (located r s) (finditer r s) /\ in_order 0 (finditer r s) = true.
Proof. exact (finditer_from_sound r (2 * length s + 2) false [] s). Qed.

(** With fuel above the measure, [finditer] does not depend on the fuel. *)
Lemma finditer_from_fuel (r : regex) (fuel1 : nat) :
  forall fuel2 must_advance pos s,
    finditer_measure must_advance s < fuel1 ->
    finditer_measure must_advance s < fuel2 ->
    finditer_from fuel1 r must_advance pos s
    = finditer_from fuel2 r must_advance pos s.
Proof.
  induction fuel1 as [|fuel1 IH]; intros fuel2 must_advance pos s H1 H2;
    [lia|].
  destruct fuel2 as [|fuel2]; [lia|]. simpl.
  destruct (if must_advance then search_advancing r pos s
            else search_from r pos s) as [m|] eqn:E; [|reflexivity].
  f_equal. apply finditer_search_sound in E.
  destruct E as (Hadv & a & c & Hs & Hst & Hen & Hm).
  assert (Hlen : length s = length a + length c + length (m_rest m)).
  { rewrite Hs at 1. rewrite !length_app. lia. }
  assert (Hdec : finditer_measure (m_end m =? m_start m) (m_rest m)
                 < finditer_measure must_advance s).
  { unfold finditer_measure in *.
    destruct (m_end m =? m_start m) eqn:Ee.
    - apply Nat.eqb_eq in Ee. destruct must_advance.
      + specialize (Hadv eq_refl). lia.
      + lia.
    - apply Nat.eqb_neq in Ee. destruct must_advance; lia. }
  apply IH; lia.
Qed.

Lemma finditer_fuel (r : regex) (s : str) (extra : nat) :
  finditer_from (2 * length s + 2 + extra) r false 0 s = finditer r s.
Proof.
  unfold finditer. apply finditer_from_fuel; unfold finditer_measure; lia.
Qed.

End Soundness.

(** ** The order of the fields *)

Section Inversion.

Lemma matches_seq_inv (r1 r2 : regex) (pos : nat) (c ahead : str) (g g2 : caps) :
  matches (Seq r1 r2) pos c ahead g g2 ->
  exists c1 c2 g1,
    c = c1 ++ c2 /\ matches r1 pos c1 (c2 ++ ahead) g g1
    /\ matches r2 (pos + length c1) c2 ahead g1 g2.
Proof. inversion 1; subst. eauto 7. Qed.

Lemma matches_lit_inv (w : str) (pos : nat) (c ahead : str) (g g' : caps) :
  matches (Lit w) pos c ahead g g' -> c = w /\ g' = g.
Proof. inversion 1; subst. auto. Qed.

Lemma matches_star_inv (greedy : bool) (p : ascii -> bool) (pos : nat)
  (c ahead : str) (g g' : caps) :
  matches (Star greedy p) pos c ahead g g' -> forallb p c = true /\ g' = g.
Proof. inversion 1; subst. auto. Qed.

Lemma matches_plus_inv (greedy : bool) (p : ascii -> bool) (pos : nat)
  (c ahead : str) (g g' : caps) :
  matches (Plus greedy p) pos c ahead g g' ->
  c <> [] /\ forallb p c = true /\ g' = g.
Proof.
  unfold Plus. intros H. apply matches_seq_inv in H.
  destruct H as (c1 & c2 & g1 & -> & H1 & H2).
  inversion H1; subst. apply matches_star_inv in H2. destruct H2 as [Hp ->].
  simpl. split; [discriminate|]. split; [|reflexivity].
  apply andb_true_intro. auto.
Qed.

Lemma matches_group_inv (n : nat) (r : regex) (pos : nat) (c ahead : str)
  (g g' : caps) :
  matches (Group n r) pos c ahead g g' ->
  exists g1, matches r pos c ahead g g1 /\ g' = (n, c) :: g1.
Proof. inversion 1; subst. eauto. Qed.

(** What a match of the key/value pattern holds. *)
Lemma kv_re_shape (pos : nat) (c ahead : str) (g' : caps) :
  matches kv_re pos c ahead [] g' ->
  exists key gap value,
    c = quoted key ++ lit ":" ++ gap ++ value
    /\ g' = [(2, value); (1, key)]
    /\ forallb is_space gap = true.
Proof.
  unfold kv_re, ws. intros H.
  apply matches_seq_inv in H. destruct H as (c1 & t1 & g1 & -> & H1 & H).
  apply matches_lit_inv in H1. destruct H1 as [-> ->].
  apply matches_seq_inv in H. destruct H as (key & t2 & g2 & -> & H2 & H).
  apply matches_group_inv in H2. destruct H2 as (g2' & H2 & ->).
  apply matches_plus_inv in H2. destruct H2 as (_ & _ & ->).
  apply matches_seq_inv in H. destruct H as (c3 & t3 & g3 & -> & H3 & H).
  apply matches_lit_inv in H3. destruct H3 as [-> ->].
  apply matches_seq_inv in H. destruct H as (c4 & t4 & g4 & -> & H4 & H).
  apply matches_lit_inv in H4. destruct H4 as [-> ->].
  apply matches_seq_inv in H. destruct H as (gap & t5 & g5 & -> & H5 & H).
  apply matches_star_inv in H5. destruct H5 as [Hgap ->].
  apply matches_group_inv in H. destruct H as (g6 & H & ->).
  apply matches_plus_inv in H. destruct H as (_ & _ & ->).
  exists key, gap, t5. split; [|split; [reflexivity | assumption]].
  unfold quoted. simpl. rewrite <- !app_assoc. reflexivity.
Qed.

(** What a match of [pattern] holds: the second group is the text between
    the quotes of the operation attribute, the third the text from there to
    the closing brace. *)
Lemma pattern_shape (text : str) (m : rmatch) :
  re_search pattern text = Some m ->
  exists before sp1 sp2 sp3 sp4,
    text = before
           ++ block_text (group m 1) (group m 2) (group m 3) sp1 sp2 sp3 sp4
           ++ m_rest m
    /\ length before = m_start m
    /\ forallb is_space (sp1 ++ sp2 ++ sp3 ++ sp4) = true.
Proof.
  intros H. apply search_from_sound in H.
  destruct H as (a & c & Hs & Hst & Hen & H).
  unfold pattern, ws in H.
  apply matches_seq_inv in H. destruct H as (c1 & t1 & g1 & -> & L & H).
  apply matches_lit_inv in L. destruct L as [-> ->].
  apply matches_seq_inv in H. destruct H as (sp1 & t2 & g2 & -> & W1 & H).
  apply matches_star_inv in W1. destruct W1 as [W1 ->].
  apply matches_seq_inv in H. destruct H as (c3 & t3 & g3 & -> & L & H).
  apply matches_lit_inv in L. destruct L as [-> ->].
  apply matches_seq_inv in H. destruct H as (sp2 & t4 & g4 & -> & W2 & H).
  apply matches_star_inv in W2. destruct W2 as [W2 ->].
  apply matches_seq_inv in H. destruct H as (c5 & t5 & g5 & -> & L & H).
  apply matches_lit_inv in L. destruct L as [-> ->].
  apply matches_seq_inv in H. destruct H as (comp & t6 & g6 & -> & G1 & H).
  apply matches_group_inv in G1. destruct G1 as (g6' & G1 & ->).
  apply matches_plus_inv in G1. destruct G1 as (_ & _ & ->).
  apply matches_seq_inv in H. destruct H as (c7 & t7 & g7 & -> & L & H).
  apply matches_lit_inv in L. destruct L as [-> ->].
  apply matches_seq_inv in H. destruct H as (c8 & t8 & g8 & -> & L & H).
  apply matches_lit_inv in L. destruct L as [-> ->].
  apply matches_seq_inv in H. destruct H as (sp3 & t9 & g9 & -> & W3 & H).
  apply matches_star_inv in W3. destruct W3 as [W3 ->].
  apply matches_seq_inv in H. destruct H as (c10 & t10 & g10 & -> & L & H).
  apply matches_lit_inv in L. destruct L as [-> ->].
  apply matches_seq_inv in H. destruct H as (sp4 & t11 & g11 & -> & W4 & H).
  apply matches_star_inv in W4. destruct W4 as [W4 ->].
  apply matches_seq_inv in H. destruct H as (c12 & t12 & g12 & -> & L & H).
  apply matches_lit_inv in L. destruct L as [-> ->].
  apply matches_seq_inv in H. destruct H as (op & t13 & g13 & -> & G2 & H).
  apply matches_group_inv in G2. destruct G2 as (g13' & G2 & ->).
  apply matches_plus_inv in G2. destruct G2 as (_ & _ & ->).
  apply matches_seq_inv in H. destruct H as (c14 & t14 & g14 & -> & L & H).
  apply matches_lit_inv in L. destruct L as [-> ->].
  apply matches_seq_inv in H. destruct H as (rest & t15 & g15 & -> & G3 & H).
  apply matches_group_inv in G3. destruct G3 as (g15' & G3 & ->).
  apply matches_star_inv in G3. destruct G3 as (_ & ->).
  apply matches_lit_inv in H. destruct H as [-> Hg].
  exists a, sp1, sp2, sp3, sp4.
  unfold group. rewrite Hg. cbn [lookup_group Nat.eqb].
  split; [|split; [auto|]].
  - rewrite Hs. unfold block_text, quoted. f_equal.
    cbn [app]. rewrite <- !app_assoc. cbn [app]. reflexivity.
  - rewrite !forallb_app, W1, W2, W3, W4. reflexivity.
Qed.

Lemma located_pair_at (content : str) (km : rmatch) :
  located kv_re content km -> pair_at content km.
Proof.
  intros (a & c & Hs & Hst & Hen & Hm).
  apply kv_re_shape in Hm. destruct Hm as (key & gap & value & -> & Hg & Hgap).
  unfold pair_at, group. rewrite Hg. simpl lookup_group.
  exists a, gap. split; [|split; [auto|split; [assumption|]]].
  - rewrite Hs, <- !app_assoc. reflexivity.
  - rewrite Hst, Hen. unfold quoted. simpl. lia.
Qed.

End Inversion.

(** C5, as the code has it.  A block whose text after the operation
    attribute holds none of the keywords [Namespace:], [Source:], [Error:]
    and [Additional:], at any place, gives one field, the operation field;
    when the block was recognized by [pattern] in a text, the field holds
    what stands between the quotes of the operation attribute in that
    text. *)
Theorem operation_only_without_optional_attributes (m : rmatch) :
  contains (lit "Namespace:") (group m 3) = false ->
  contains (lit "Source:") (group m 3) = false ->
  contains (lit "Error:") (group m 3) = false ->
  contains (lit "Additional:") (group m 3) = false ->
  all_fields m
  = [lit "sdklog.Operation(" ++ "034"%char :: group m 2
     ++ "034"%char :: lit ")"]
  /\ replace_fields m
     = lit "sdklog.Operation(" ++ "034"%char :: group m 2
       ++ "034"%char :: lit ")"
  /\ forall text,
       re_search pattern text = Some m ->
       exists before sp1 sp2 sp3 sp4,
         text = before
                ++ (lit "logger.Fields{" ++ sp1 ++ lit "Component:" ++ sp2
                    ++ "034"%char :: group m 1 ++ "034"%char :: lit ","
                    ++ sp3 ++ lit "Operation:" ++ sp4
                    ++ "034"%char :: group m 2 ++ "034"%char :: group m 3
                    ++ lit "}")
                ++ m_rest m.
Proof.
  intros Hn Hs He Ha.
  assert (H : all_fields m = [sdklog_operation (group m 2)]).
  { rewrite all_fields_eq. unfold re_search.
    unfold namespace_re, source_re, error_re, attribute_re, additional_re.
    rewrite !search_needs_literal by assumption. reflexivity. }
  assert (Hop : sdklog_operation (group m 2)
                = lit "sdklog.Operation(" ++ "034"%char :: group m 2
                  ++ "034"%char :: lit ")").
  { unfold sdklog_operation, quoted. cbn [app]. rewrite <- app_assoc.
    reflexivity. }
  split; [rewrite H, Hop; reflexivity|].
  split; [unfold replace_fields; rewrite H, Hop; reflexivity|].
  intros text Ht. destruct (pattern_shape text m Ht)
    as (before & sp1 & sp2 & sp3 & sp4 & Hs' & _).
  exists before, sp1, sp2, sp3, sp4. rewrite Hs' at 1.
  unfold block_text, quoted. cbn [app]. rewrite <- !app_assoc. cbn [app].
  reflexivity.
Qed.

Lemma operation_only_without_optional_attributes_witness :
  exists m,
    re_search pattern
      (lit "logger.Info(msg, logger.Fields{Component: " ++ quoted (lit "config")
       ++ lit ", Operation: " ++ quoted (lit "reload") ++ lit ", Reason: r})")
    = Some m
    /\ all_fields m
       = [lit "sdklog.Operation(" ++ "034"%char :: lit "reload"
          ++ "034"%char :: lit ")"]
    /\ replace_fields m
       = lit "sdklog.Operation(" ++ "034"%char :: lit "reload"
         ++ "034"%char :: lit ")".
Proof.
  eexists. split; [vm_compute; reflexivity|].
  destruct (operation_only_without_optional_attributes
              (mkMatch 17 80 (lit ")")
                 [(3, lit ", Reason: r"); (2, lit "reload");
                  (1, lit "config")]))
    as (Hfields & Htext & _); try reflexivity.
  split; [exact Hfields | exact Htext].
Defined.

(** C5, as stated, fails.  A block with the attributes Component,
    Operation, PodNamespace and LastError has none of the optional
    attributes, and yet it gives three fields: the keywords are searched as
    substrings and are found at the end of the longer names. *)
Lemma keyword_found_inside_longer_name :
  let items :=
    [(lit "Component", "034"%char :: lit "c" ++ ["034"%char]);
     (lit "Operation", "034"%char :: lit "op" ++ ["034"%char]);
     (lit "PodNamespace", lit "ns");
     (lit "LastError", lit "e")] in
  let text :=
    lit "logger.Fields{"
    ++ join (lit ", ") (map (fun nv => fst nv ++ lit ": " ++ snd nv) items)
    ++ lit "}" in
  text = lit "logger.Fields{Component: " ++ "034"%char :: lit "c"
         ++ "034"%char :: lit ", Operation: " ++ "034"%char :: lit "op"
         ++ "034"%char :: lit ", PodNamespace: ns, LastError: e}"
  /\ (forall name,
        In name [lit "Namespace"; lit "Source"; lit "Error"; lit "Additional"]
        -> ~ In name (map fst items))
  /\ exists m,
       re_search pattern text = Some m
       /\ group m 2 = lit "op"
       /\ all_fields m
          = [lit "sdklog.Operation(" ++ "034"%char :: lit "op"
             ++ "034"%char :: lit ")";
             lit "sdklog.String(" ++ "034"%char :: lit "namespace"
             ++ "034"%char :: lit ", ns)";
             lit "sdklog.Error(e)"]
       /\ length (all_fields m) = 3.
Proof.
  cbv zeta. split; [vm_compute; reflexivity|].
  split.
  - intros name Hin. vm_compute in Hin. vm_compute.
    intuition (subst; discriminate).
  - eexists. split; [vm_compute; reflexivity|].
    split; [vm_compute; reflexivity|].
    split; vm_compute; reflexivity.
Qed.

(** On any match object the field list starts with the operation field, built from the
    second group of the match; then come the namespace, source and error
    fields, each one if its attribute is found; then the fields of the
    catch-all pairs, in the order of their places in the text of the map:
    each pair stands in that text at the offset of its match, every match
    starts at or after the end of the one before, and more fuel for the
    search finds no further match. *)
Lemma fields_in_fixed_order (m : rmatch) :
  all_fields m =
  [sdklog_operation (group m 2)]
  ++ match re_search namespace_re (group m 3) with
     | Some nm => [sdklog_call "String" (lit "namespace") (strip (group nm 1))]
     | None => []
     end
  ++ match re_search source_re (group m 3) with
     | Some sm => [sdklog_call "String" (lit "source") (strip (group sm 1))]
     | None => []
     end
  ++ match re_search error_re (group m 3) with
     | Some em => [sdklog_error (strip (group em 1))]
     | None => []
     end
  ++ match re_search additional_re (group m 3) with
     | Some am =>
         map (fun km => kv_field (group km 1, group km 2))
           (finditer kv_re (group am 1))
     | None => []
     end
  /\ match re_search additional_re (group m 3) with
     | Some am =>
         in_order 0 (finditer kv_re (group am 1)) = true
         /\ Forall (pair_at (group am 1)) (finditer kv_re (group am 1))
         /\ (forall extra,
               finditer_from (2 * length (group am 1) + 2 + extra) kv_re false
                 0 (group am 1)
               = finditer kv_re (group am 1))
     | None => True
     end.
Proof.
  split.
  - rewrite all_fields_eq. unfold findall2.
    destruct (re_search additional_re (group m 3)); [|reflexivity].
    rewrite map_map. reflexivity.
  - destruct (re_search additional_re (group m 3)) as [am|]; [|exact I].
    destruct (finditer_sound kv_re (group am 1)) as (Hall & Hord).
    split; [assumption|]. split; [|apply finditer_fuel].
    eapply Forall_impl; [|exact Hall].
    intros km. apply located_pair_at.
Qed.

(** ** The third group of [pattern]

    [replace_fields] takes any match object.  A match of [pattern] itself
    ends its third group before the first closing brace, so that group never
    holds a whole catch-all map. *)

Section ThirdGroup.

(** A lazy repetition stops at the first place where what follows
    matches. *)
Lemma star_lazy_first (p : ascii -> bool) (g : caps)
  (k : nat -> str -> caps -> option cursor) (x : cursor) :
  forall s pos,
    rx (Star false p) pos s g k = Some x ->
    exists c ahead,
      s = c ++ ahead /\ forallb p c = true
      /\ k (pos + length c) ahead g = Some x
      /\ forall c1 c2, c = c1 ++ c2 -> c2 <> [] ->
           k (pos + length c1) (c2 ++ ahead) g = None.
Proof.
  induction s as [|ch s IH]; intros pos; rewrite star_lazy_step.
  - destruct (k pos [] g) eqn:E; [|discriminate].
    intros H. injection H as ->. exists [], []. simpl. rewrite Nat.add_0_r.
    repeat split; try assumption.
    intros c1 c2 Hc Hne. symmetry in Hc. apply app_eq_nil in Hc. tauto.
  - destruct (k pos (ch :: s) g) eqn:E.
    + intros H. injection H as ->. exists [], (ch :: s). simpl.
      rewrite Nat.add_0_r. repeat split; try assumption.
      intros c1 c2 Hc Hne. symmetry in Hc. apply app_eq_nil in Hc. tauto.
    + destruct (p ch) eqn:Hp; [|discriminate]. intros H.
      apply IH in H. destruct H as (c & ahead & -> & Hall & Hk & Hfirst).
      exists (ch :: c), ahead. simpl. rewrite Hp, Hall, Nat.add_succ_r.
      repeat split; try assumption.
      intros [|d c1] c2 Hc Hne; simpl in Hc.
      * subst c2. simpl. rewrite Nat.add_0_r. assumption.
      * injection Hc as <- ->. simpl. rewrite Nat.add_succ_r.
        apply Hfirst; [reflexivity | assumption].
Qed.

Lemma search_from_match_at (r : regex) (s : str) :
  forall pos m,
    search_from r pos s = Some m ->
    exists pos' s', match_at r pos' s' = Some m.
Proof.
  induction s as [|x s IH]; intros pos m H; simpl in H;
    destruct (match_at r pos _) eqn:E; try discriminate.
  - injection H as ->. eauto.
  - injection H as ->. eauto.
  - eapply IH. eassumption.
Qed.

Ltac peel H :=
  rewrite rx_seq in H; apply rx_sound in H;
  destruct H as (? & ? & ? & -> & _ & H).

Lemma pattern_third_group (text : str) (m : rmatch) :
  re_search pattern text = Some m -> ~ In "}"%char (group m 3).
Proof.
  intros H. apply search_from_match_at in H. destruct H as (pos & s & H).
  unfold match_at in H.
  destruct (rx pattern pos s [] accept) as [[[e s'] g]|] eqn:E;
    [|discriminate].
  injection H as <-. unfold pattern, ws in E.
  do 14 peel E.
  rewrite rx_seq, rx_group in E.
  apply star_lazy_first in E.
  destruct E as (c & ahead & -> & _ & Hk & Hfirst).
  cbv beta in Hk, Hfirst. rewrite rx_lit in Hk.
  destruct (startswith (lit "}") ahead); [|discriminate].
  unfold accept in Hk. injection Hk as _ _ <-.
  unfold group. cbn [m_groups lookup_group Nat.eqb].
  match goal with
  | |- ~ In _ (firstn (?q + length c - ?q) _) =>
      replace (q + length c - q) with (length c) by lia
  end.
  rewrite firstn_app, Nat.sub_diag, firstn_all. simpl. rewrite app_nil_r.
  intros Hin. apply in_split in Hin. destruct Hin as (c1 & c2 & ->).
  specialize (Hfirst c1 ("}"%char :: c2) eq_refl ltac:(discriminate)).
  rewrite rx_lit in Hfirst. simpl in Hfirst. discriminate.
Qed.

(** On a match of [pattern] the search for the catch-all map finds
    nothing. *)
Lemma pattern_has_no_catch_all (text : str) (m : rmatch) :
  re_search pattern text = Some m ->
  re_search additional_re (group m 3) = None.
Proof.
  intros H. apply pattern_third_group in H.
  destruct (re_search additional_re (group m 3)) as [am|] eqn:E;
    [|reflexivity].
  exfalso. apply H.
  apply search_from_sound in E. destruct E as (a & c & Hs & _ & _ & Hm).
  unfold additional_re, ws in Hm.
  apply matches_seq_inv in Hm. destruct Hm as (c1 & t1 & g1 & -> & L & Hm).
  apply matches_lit_inv in L. destruct L as [-> ->].
  apply matches_seq_inv in Hm. destruct Hm as (sp & t2 & g2 & -> & _ & Hm).
  apply matches_seq_inv in Hm. destruct Hm as (c3 & t3 & g3 & -> & L & _).
  apply matches_lit_inv in L. destruct L as [-> _].
  rewrite Hs. rewrite !in_app_iff. right. left. right. right. left.
  vm_compute. tauto.
Qed.

End ThirdGroup.

(** * Further properties of the scan *)

(** ** The lines of the result *)

Section ResultLines.

Variable lines : list str.
Hypothesis lines_split : Forall (fun l => ~ In nl l) lines.

(** The lines that one iteration adds to the result: at most one line of
    its own, the marker comment before a block or the declaration before a
    logging call, and then the lines it went over. *)
Lemma emitted_lines (n : nat) (line : str) (out : list str) :
  nth_error lines n = Some line ->
  exists extra,
    concat (map (split nl) (snd (emitted lines n line out)))
    = concat (map (split nl) out) ++ extra
      ++ firstn (fst (emitted lines n line out) - n) (skipn n lines)
    /\ n < fst (emitted lines n line out) <= length lines
    /\ ((contains fields_marker line = true /\ extra = [todo_marker])
        \/ (contains fields_marker line = false
            /\ fst (emitted lines n line out) = S n
            /\ (extra = [] \/ extra = [declaration_line]))).
Proof.
  intros Hn.
  assert (Hlt : n < length lines) by (apply nth_error_Some; congruence).
  assert (Hline : ~ In nl line).
  { rewrite Forall_forall in lines_split. apply lines_split.
    eapply nth_error_In. eassumption. }
  destruct (emitted_advances lines n line out Hlt) as (Hadv & _).
  revert Hadv. unfold emitted.
  destruct (contains fields_marker line); cbn [fst snd]; intros Hadv.
  - exists [todo_marker]. split; [|split; [assumption | left; auto]].
    set (k := open_run (brace_delta line) (skipn (S n) lines)).
    replace (S n + k - n) with (S k) by lia.
    rewrite (skipn_nth lines n line Hn). cbn [firstn].
    rewrite map_app, concat_app. cbn [map concat]. rewrite app_nil_r.
    rewrite split_todo_block; [reflexivity | discriminate |].
    constructor; [assumption|].
    apply Forall_firstn, Forall_skipn. assumption.
  - replace (S n - n) with 1 by lia.
    rewrite (skipn_nth lines n line Hn). cbn [firstn].
    rewrite map_app, concat_app. cbn [map concat].
    rewrite app_nil_r, (split_line line Hline).
    destruct (matched (re_match logcall_re line)).
    + destruct (negb (recently_declared out)).
      * exists [declaration_line]. split; [|split; [assumption | right; auto]].
        rewrite map_app, concat_app. cbn [map concat].
        rewrite app_nil_r, split_line, <- app_assoc; [reflexivity|].
        vm_compute. intuition discriminate.
      * exists []. split; [reflexivity|]. split; [assumption | right; auto].
    + exists []. split; [reflexivity|]. split; [assumption | right; auto].
Qed.

Lemma lines_invariant_step (st st' : state) :
  lines_invariant lines st -> i st < length lines ->
  body lines st = Done st' -> lines_invariant lines st'.
Proof.
  intros (Hi & Hknown & Hlen & Hgrow & Hsub) Hlt Hb.
  destruct (index_in_range lines _ Hlt) as (line & Hn & _).
  rewrite (body_run lines st line Hn) in Hb. injection Hb as <-.
  unfold lines_invariant. cbn [i new_lines].
  destruct (emitted_lines (i st) line (new_lines st) Hn)
    as (extra & -> & Hadv & Hcase).
  set (i' := fst (emitted lines (i st) line (new_lines st))) in *.
  set (seg := firstn (i' - i st) (skipn (i st) lines)) in *.
  assert (Hseg : length seg = i' - i st).
  { unfold seg. rewrite length_firstn, length_skipn. lia. }
  assert (Hfirst : firstn i' lines = firstn (i st) lines ++ seg).
  { replace i' with (i st + (i' - i st)) at 1 by lia. apply firstn_plus. }
  assert (Hextra : length extra <= 1
                   /\ Forall (known_line lines) extra
                   /\ (existsb (contains fields_marker) seg = true ->
                       length extra = 1)).
  { destruct Hcase as [(Hm & ->)|(Hm & Hi' & [->| ->])].
    - split; [simpl; lia|]. split; [|reflexivity].
      constructor; [|constructor]. right. left. reflexivity.
    - split; [simpl; lia|]. split; [constructor|].
      unfold seg. rewrite Hi'. replace (S (i st) - i st) with 1 by lia.
      rewrite (skipn_nth lines _ line Hn). simpl. rewrite Hm. discriminate.
    - split; [simpl; lia|]. split; [|reflexivity].
      constructor; [|constructor]. right. right. reflexivity. }
  destruct Hextra as (He1 & He2 & He3).
  rewrite !length_app, Hseg, Hfirst.
  split; [lia|]. split; [|split; [lia|split]].
  - apply Forall_app. split; [assumption|]. apply Forall_app.
    split; [assumption|]. unfold seg.
    apply Forall_forall. intros l Hl. left.
    eapply (proj1 (Forall_forall (fun x => In x lines) _)); [|exact Hl].
    apply Forall_firstn, Forall_skipn. apply Forall_forall. auto.
  - rewrite existsb_app. intros H. apply orb_prop in H.
    destruct H as [H|H]; [specialize (Hgrow H) | specialize (He3 H)]; lia.
  - apply subseq_app; [assumption|].
    rewrite <- (app_nil_l seg) at 1.
    apply subseq_app; [apply subseq_nil_l | apply subseq_refl].
Qed.

End ResultLines.

Lemma subseq_In (a b : list str) (x : str) : subseq a b -> In x a -> In x b.
Proof.
  induction 1 as [|y a b H IH|y a b H IH]; simpl; intuition.
Qed.

(** The result of the scan and its lines. *)
Lemma scan_summary (content : str) :
  exists out,
    migrate_logger_fields content = Done out
    /\ Forall (known_line (split nl content)) (split nl out)
    /\ length (split nl content) <= length (split nl out)
       <= 2 * length (split nl content)
    /\ (existsb (contains fields_marker) (split nl content) = true ->
        length (split nl content) < length (split nl out))
    /\ subseq (split nl content) (split nl out).
Proof.
  unfold migrate_logger_fields. set (lines := split nl content).
  destruct (main_loop_rule lines (lines_invariant lines))
    with (fuel := length lines) (st := initial) as (st & Hr & Hp & Hl).
  - intros st st'. apply lines_invariant_step. apply split_lines.
  - unfold lines_invariant, initial. cbn [i new_lines map concat firstn].
    simpl length. repeat split; try lia; try constructor. discriminate.
  - unfold initial; cbn [i]; lia.
  - rewrite Hr. cbn [bind]. eexists. split; [reflexivity|].
    destruct Hp as (Hi & Hknown & Hlen & Hgrow & Hsub).
    assert (Hi' : i st = length lines) by lia.
    rewrite Hi', firstn_all in *.
    assert (Hne : new_lines st <> []).
    { intros E. rewrite E in Hlen. simpl in Hlen.
      apply (split_nonempty nl content). apply length_zero_iff_nil.
      fold lines. lia. }
    rewrite split_join by assumption. auto.
Qed.

(** X1.  The scan writes nothing of its own but the marker comment and the
    declaration: every line of the result is a line of the document, the
    marker comment or the synthesized declaration line. *)
Theorem result_lines_are_known (content : str) :
  exists out,
    migrate_logger_fields content = Done out
    /\ Forall (known_line (split nl content)) (split nl out).
Proof.
  destruct (scan_summary content) as (out & Hout & Hknown & _).
  exists out. auto.
Qed.

(** X2.  The result has at least as many lines as the document and at most
    twice as many: an iteration adds at most one line to those it goes
    over. *)
Theorem result_line_count (content : str) :
  exists out,
    migrate_logger_fields content = Done out
    /\ length (split nl content) <= length (split nl out)
       <= 2 * length (split nl content).
Proof.
  destruct (scan_summary content) as (out & Hout & _ & Hlen & _).
  exists out. auto.
Qed.

(** ** Blocks, whatever their braces *)

Lemma open_run_ends (bc : Z) (rest : list str) :
  closes_at_end bc (firstn (open_run bc rest) rest) = true
  \/ (never_closes bc rest = true /\ open_run bc rest = length rest).
Proof.
  revert bc. induction rest as [|l rest IH]; intros bc; simpl.
  - destruct (Z.leb_spec bc 0) as [H|H]; [left; reflexivity|].
    right. split; [apply Z.ltb_lt; assumption | reflexivity].
  - destruct (0 <? bc)%Z eqn:E.
    + simpl. rewrite E. simpl.
      destruct (IH (bc + brace_delta l)%Z) as [H|[H1 H2]];
        [left; assumption | right; auto].
    + left. simpl. apply Z.leb_le. apply Z.ltb_ge in E. assumption.
Qed.

(** ** The reach of a declaration *)

Lemma skipn_head (A : Type) (l t : list A) (n : nat) (x : A) :
  skipn n l = x :: t -> nth_error l n = Some x /\ skipn (S n) l = t.
Proof.
  revert n. induction l as [|y l IH]; intros [|n] H; simpl in *;
    try discriminate.
  - injection H as -> ->. auto.
  - apply IH. assumption.
Qed.

(** A declaration stays in the window of the check for the nine entries
    that follow it. *)
Lemma recently_declared_after (base done : list str) :
  length done <= 9 ->
  recently_declared (base ++ declaration_line :: done) = true.
Proof.
  intros Hlen. unfold recently_declared, last_n.
  rewrite skipn_app.
  replace (length (base ++ declaration_line :: done) - 10 - length base)
    with 0 by (rewrite length_app; simpl; lia).
  rewrite existsb_app. cbn [skipn existsb].
  replace (contains declaration declaration_line) with true
    by (vm_compute; reflexivity).
  apply orb_true_r.
Qed.

(** Lines without the marker that follow a declaration closely are emitted
    as they are. *)
Lemma lines_after_declaration (lines base : list str) :
  forall (nxt post done : list str) (st : state),
    reachable lines st ->
    new_lines st = base ++ declaration_line :: done ->
    skipn (i st) lines = nxt ++ post ->
    Forall (fun l => contains fields_marker l = false) nxt ->
    length done + length nxt <= 10 ->
    exists st',
      reachable lines st'
      /\ new_lines st' = base ++ declaration_line :: done ++ nxt.
Proof.
  induction nxt as [|l nxt IH]; intros post done st Hr Hnew Hskip Hplain Hlen.
  - exists st. rewrite app_nil_r. auto.
  - simpl in Hskip. apply skipn_head in Hskip. destruct Hskip as [Hn Hskip].
    inversion Hplain as [|? ? Hl Hplain']; subst.
    pose proof (reachable_next _ _ _ Hr Hn) as Hr'.
    unfold emitted in Hr'. rewrite Hl in Hr'. cbn [fst snd] in Hr'.
    rewrite Hnew in Hr'.
    rewrite recently_declared_after in Hr' by (simpl in Hlen; lia).
    cbn [negb] in Hr'.
    assert (Hsame : (if matched (re_match logcall_re l)
                     then base ++ declaration_line :: done
                     else base ++ declaration_line :: done)
                    = base ++ declaration_line :: done)
      by (destruct (matched (re_match logcall_re l)); reflexivity).
    rewrite Hsame in Hr'.
    destruct (IH post (done ++ [l]) _ Hr') as (st' & Hr2 & Hnew2).
    + cbn [new_lines]. rewrite <- app_assoc. reflexivity.
    + cbn [i]. assumption.
    + assumption.
    + rewrite length_app. simpl in *. lia.
    + exists st'. split; [assumption|].
      rewrite Hnew2, <- app_assoc. reflexivity.
Qed.

(** X5.  Once the scan has inserted a declaration before a logging call,
    the nine lines after that call are emitted as they are when none of
    them holds the marker: a logging call among them gets no declaration of
    its own. *)
Theorem declaration_covers_the_next_nine
  (content : str) (st : state) (line : str) (nxt post : list str) :
  reachable (split nl content) st ->
  skipn (i st) (split nl content) = line :: nxt ++ post ->
  contains fields_marker line = false ->
  matched (re_match logcall_re line) = true ->
  recently_declared (new_lines st) = false ->
  Forall (fun l => contains fields_marker l = false) nxt ->
  length nxt <= 9 ->
  exists more,
    migrate_logger_fields content
    = Done (join [nl]
              (new_lines st ++ declaration_line :: line :: nxt ++ more)).
Proof.
  intros Hr Hskip Hm Hc Hrec Hplain Hlen.
  apply skipn_head in Hskip. destruct Hskip as [Hn Hskip].
  pose proof (reachable_next _ _ _ Hr Hn) as Hr'.
  unfold emitted in Hr'. rewrite Hm, Hc, Hrec in Hr'.
  cbn [fst snd negb] in Hr'.
  destruct (lines_after_declaration (split nl content) (new_lines st)
              nxt post [line] _ Hr') as (st' & Hr2 & Hnew).
  - cbn [new_lines]. rewrite <- app_assoc. reflexivity.
  - cbn [i]. assumption.
  - assumption.
  - simpl. lia.
  - destruct (migrate_from_reachable _ _ Hr2) as (more & Hout).
    exists more. rewrite Hout, Hnew. rewrite <- app_assoc. cbn [app].
    rewrite <- ?app_assoc. reflexivity.
Qed.

Lemma declaration_covers_the_next_nine_witness :
  exists more,
    migrate_logger_fields
      (join [nl] [tab :: lit "logger.Info(a)"; lit ""; tab :: lit "logger.Warn(b)";
                  lit "}"])
    = Done (join [nl]
              ([] ++ declaration_line :: (tab :: lit "logger.Info(a)")
                  :: [lit ""; tab :: lit "logger.Warn(b)"] ++ more)).
Proof.
  apply (declaration_covers_the_next_nine
           (join [nl] [tab :: lit "logger.Info(a)"; lit "";
                       tab :: lit "logger.Warn(b)"; lit "}"])
           initial (tab :: lit "logger.Info(a)")
           [lit ""; tab :: lit "logger.Warn(b)"] [lit "}"]).
  - apply reach_initial.
  - reflexivity.
  - reflexivity.
  - reflexivity.
  - reflexivity.
  - repeat constructor.
  - simpl. lia.
Defined.

(** ** The lines that the logging-call pattern takes *)

Lemma startswith_app_split (a b s : str) :
  startswith (a ++ b) s = startswith a s && startswith b (skipn (length a) s).
Proof.
  revert s. induction a as [|x a IH]; intros s; [reflexivity|].
  destruct s as [|y s]; [reflexivity|]. simpl.
  rewrite IH, andb_assoc. reflexivity.
Qed.

Lemma space_not_l (c : ascii) :
  is_space c = true -> Ascii.eqb "l"%char c = false.
Proof.
  intros H. destruct (Ascii.eqb_spec "l"%char c) as [<-|];
    [discriminate | reflexivity].
Qed.

(** X6.  The logging-call pattern takes exactly the lines made of one or
    more whitespace characters followed by [logger.Info(], [logger.Warn(],
    [logger.Error(] or [logger.Debug(]. *)
Theorem logcall_re_recognizes (line : str) :
  matched (re_match logcall_re line) = is_logcall line.
Proof.
  unfold re_match, match_at, logcall_re, Plus, is_logcall.
  rewrite rx_seq, rx_bol, !rx_seq, rx_cls.
  destruct line as [|c line]; [reflexivity|].
  destruct (is_space c); [|reflexivity]. cbn [andb].
  rewrite star_greedy_max.
  - set (r := skip_while is_space line).
    unfold log_levels. cbn [existsb].
    rewrite !startswith_app_split. rewrite rx_seq, rx_lit.
    destruct (startswith (lit "logger.") r); [|reflexivity].
    cbn [andb]. set (r' := skipn (length (lit "logger.")) r).
    rewrite rx_seq, rx_group. cbn [rx].
    destruct (startswith (lit "Info") r');
      [destruct (startswith (lit "(") (skipn (length (lit "Info")) r'));
       [reflexivity|]|];
      (destruct (startswith (lit "Warn") r');
       [destruct (startswith (lit "(") (skipn (length (lit "Warn")) r'));
        [reflexivity|]|]);
      (destruct (startswith (lit "Error") r');
       [destruct (startswith (lit "(") (skipn (length (lit "Error")) r'));
        [reflexivity|]|]);
      (destruct (startswith (lit "Debug") r');
       [destruct (startswith (lit "(") (skipn (length (lit "Debug")) r'));
        reflexivity|]);
      reflexivity.
  - intros pos d s Hd. rewrite rx_seq, rx_lit.
    cbn [lit list_ascii_of_string startswith].
    rewrite (space_not_l d Hd). reflexivity.
Qed.

(** ** The values of the optional attributes *)

Section AttributeValues.

Lemma search_from_split (r : regex) (s : str) :
  forall pos m,
    search_from r pos s = Some m ->
    exists a s', s = a ++ s' /\ match_at r (pos + length a) s' = Some m.
Proof.
  induction s as [|x s IH]; intros pos m H; simpl in H;
    destruct (match_at r pos _) eqn:E; try discriminate.
  - injection H as ->. exists [], []. simpl. rewrite Nat.add_0_r. auto.
  - injection H as ->. exists [], (x :: s). simpl. rewrite Nat.add_0_r. auto.
  - apply IH in H. destruct H as (a & s' & -> & H).
    exists (x :: a), s'. simpl. rewrite Nat.add_succ_r. auto.
Qed.

(** A greedy repetition at the end of a pattern takes all the characters
    of its class. *)
Lemma star_greedy_longest (p : ascii -> bool) (g : caps)
  (k : nat -> str -> caps -> option cursor) :
  (forall pos s, k pos s g <> None) ->
  forall s pos,
    rx (Star true p) pos s g k = k (pos + run_length p s) (skip_while p s) g.
Proof.
  intros Hk. induction s as [|c s IH]; intros pos;
    rewrite star_greedy_step; cbn [skip_while run_length].
  - rewrite Nat.add_0_r. reflexivity.
  - destruct (p c).
    + rewrite IH, Nat.add_succ_r. cbn [Nat.add].
      destruct (k (S (pos + run_length p s)) (skip_while p s) g) eqn:E;
        [reflexivity|]. exfalso. eapply Hk. eassumption.
    + rewrite Nat.add_0_r. reflexivity.
Qed.

Lemma skip_while_head (p : ascii -> bool) (s : str) :
  match skip_while p s with
  | [] => True
  | c :: _ => p c = false
  end.
Proof.
  induction s as [|c s IH]; simpl; [exact I|].
  destruct (p c) eqn:E; [assumption | simpl; assumption].
Qed.

Lemma run_length_split (p : ascii -> bool) (s : str) :
  s = firstn (run_length p s) s ++ skip_while p s
  /\ forallb p (firstn (run_length p s) s) = true.
Proof.
  induction s as [|c s (IH1 & IH2)]; simpl; [auto|].
  destruct (p c) eqn:E; simpl; [|auto].
  rewrite E, IH2. split; [f_equal; assumption | reflexivity].
Qed.

(** X7.  The value that the Namespace, Source and Error patterns take
    stands after the keyword and whitespace, is not empty, holds no comma
    and no newline, and goes on to the next comma, the next newline or the
    end of the text: a value with a comma in it is cut there. *)
Theorem attribute_value_ends_at_comma
  (name : string) (rest : str) (nm : rmatch) :
  re_search (attribute_re name) rest = Some nm ->
  exists before sp,
    rest = before ++ lit name ++ sp ++ group nm 1 ++ m_rest nm
    /\ forallb is_space sp = true
    /\ group nm 1 <> []
    /\ forallb (none_of [","%char; nl]) (group nm 1) = true
    /\ match m_rest nm with
       | [] => True
       | c :: _ => c = ","%char \/ c = nl
       end.
Proof.
  intros H. apply search_from_split in H.
  destruct H as (before & s' & -> & H). unfold match_at in H.
  destruct (rx (attribute_re name) (0 + length before) s' [] accept)
    as [[[e s2] g]|] eqn:E; [|discriminate].
  injection H as <-. unfold attribute_re, ws in E.
  rewrite rx_seq in E. apply rx_sound in E.
  destruct E as (c1 & ahead1 & g1 & -> & M1 & E).
  apply matches_lit_inv in M1. destruct M1 as [-> ->].
  rewrite rx_seq in E. apply rx_sound in E.
  destruct E as (sp & ahead2 & g2 & -> & M2 & E).
  apply matches_star_inv in M2. destruct M2 as [Hsp ->].
  rewrite rx_group in E. unfold Plus in E. rewrite rx_seq, rx_cls in E.
  destruct ahead2 as [|c0 t]; [discriminate|].
  destruct (none_of [","%char; nl] c0) eqn:Hc0; [|discriminate].
  rewrite star_greedy_longest in E by (intros; discriminate).
  match type of E with
  | context [firstn (?x - ?y) _] =>
      replace (x - y) with (S (run_length (none_of [","%char; nl]) t)) in E
        by lia
  end.
  unfold accept in E. cbn [firstn] in E. injection E as <- <- <-.
  destruct (run_length_split (none_of [","%char; nl]) t) as (Ht & Hall).
  exists before, sp. unfold group. cbn [m_groups m_rest lookup_group Nat.eqb].
  split; [|split; [assumption|split; [discriminate|split]]].
  - do 3 f_equal. simpl. f_equal. exact Ht.
  - cbn [forallb]. rewrite Hc0, Hall. reflexivity.
  - pose proof (skip_while_head (none_of [","%char; nl]) t) as Hh.
    destruct (skip_while (none_of [","%char; nl]) t) as [|c r]; [exact I|].
    unfold none_of in Hh. simpl in Hh.
    destruct (Ascii.eqb_spec c ","%char) as [->|]; [left; reflexivity|].
    destruct (Ascii.eqb_spec c nl) as [->|]; [right; reflexivity|].
    discriminate.
Qed.

Lemma attribute_value_ends_at_comma_witness :
  exists nm before sp,
    re_search namespace_re (lit ", Namespace: pod.Namespace, Source: s")
    = Some nm
    /\ lit ", Namespace: pod.Namespace, Source: s"
       = before ++ lit "Namespace:" ++ sp ++ group nm 1 ++ m_rest nm
    /\ forallb is_space sp = true
    /\ group nm 1 <> []
    /\ forallb (none_of [","%char; nl]) (group nm 1) = true
    /\ match m_rest nm with
       | [] => True
       | c :: _ => c = ","%char \/ c = nl
       end.
Proof.
  eexists.
  destruct (attribute_value_ends_at_comma "Namespace:"
              (lit ", Namespace: pod.Namespace, Source: s")
              (mkMatch 2 26 (lit ", Source: s") [(1, lit "pod.Namespace")])
              eq_refl) as (before & sp & H).
  exists before, sp. split; [reflexivity | exact H].
Defined.

End AttributeValues.

(** ** The pairs of the catch-all map *)

(** What the groups of a match of the key/value pattern hold. *)
Lemma kv_re_groups (pos : nat) (c ahead : str) (g' : caps) :
  matches kv_re pos c ahead [] g' ->
  exists key value,
    g' = [(2, value); (1, key)]
    /\ key <> [] /\ forallb (none_of [dq]) key = true
    /\ value <> []
    /\ forallb (none_of [","%char; nl; "}"%char]) value = true.
Proof.
  unfold kv_re, ws. intros H.
  apply matches_seq_inv in H. destruct H as (c1 & t1 & g1 & -> & H1 & H).
  apply matches_lit_inv in H1. destruct H1 as [-> ->].
  apply matches_seq_inv in H. destruct H as (key & t2 & g2 & -> & H2 & H).
  apply matches_group_inv in H2. destruct H2 as (g2' & H2 & ->).
  apply matches_plus_inv in H2. destruct H2 as (Hk1 & Hk2 & ->).
  apply matches_seq_inv in H. destruct H as (c3 & t3 & g3 & -> & H3 & H).
  apply matches_lit_inv in H3. destruct H3 as [-> ->].
  apply matches_seq_inv in H. destruct H as (c4 & t4 & g4 & -> & H4 & H).
  apply matches_lit_inv in H4. destruct H4 as [-> ->].
  apply matches_seq_inv in H. destruct H as (gap & t5 & g5 & -> & H5 & H).
  apply matches_star_inv in H5. destruct H5 as [_ ->].
  apply matches_group_inv in H. destruct H as (g6 & H & ->).
  apply matches_plus_inv in H. destruct H as (Hv1 & Hv2 & ->).
  exists key, t5. auto.
Qed.

(** X8.  Every pair that the key/value pattern finds has a key that is not
    empty and holds no double quote, and a value that is not empty and holds
    no comma, no newline and no closing brace: a value with one of them in
    it is cut there. *)
Theorem catch_all_pairs_are_cut (content : str) :
  Forall
    (fun kv =>
       fst kv <> [] /\ forallb (none_of [dq]) (fst kv) = true
       /\ snd kv <> []
       /\ forallb (none_of [","%char; nl; "}"%char]) (snd kv) = true)
    (findall2 kv_re content).
Proof.
  unfold findall2. apply Forall_map.
  destruct (finditer_sound kv_re content) as (Hall & _).
  eapply Forall_impl; [|exact Hall].
  intros km (a & c & _ & _ & _ & Hm).
  apply kv_re_groups in Hm. destruct Hm as (key & value & Hg & H).
  unfold group. rewrite Hg. exact H.
Qed.

(** ** What [pattern] hands to [replace_fields] *)

Lemma pattern_third_group_line (text : str) (m : rmatch) :
  re_search pattern text = Some m -> forallb dot (group m 3) = true.
Proof.
  intros H. apply search_from_match_at in H. destruct H as (pos & s & H).
  unfold match_at in H.
  destruct (rx pattern pos s [] accept) as [[[e s'] g]|] eqn:E;
    [|discriminate].
  injection H as <-. unfold pattern, ws in E.
  do 14 (rewrite rx_seq in E; apply rx_sound in E;
         destruct E as (? & ? & ? & -> & _ & E)).
  rewrite rx_seq, rx_group in E.
  apply star_lazy_first in E.
  destruct E as (c & ahead & -> & Hdot & Hk & _).
  cbv beta in Hk. rewrite rx_lit in Hk.
  destruct (startswith (lit "}") ahead); [|discriminate].
  unfold accept in Hk. injection Hk as _ _ <-.
  unfold group. cbn [m_groups lookup_group Nat.eqb].
  match goal with
  | |- forallb _ (firstn (?q + length c - ?q) _) = true =>
      replace (q + length c - q) with (length c) by lia
  end.
  rewrite firstn_app, Nat.sub_diag, firstn_all. simpl. rewrite app_nil_r.
  assumption.
Qed.

(** X9.  The third group of a match of [pattern] ends before the first
    closing brace and holds no newline, so it never holds a catch-all map:
    on such a match [replace_fields] gives the operation field and at most
    the namespace, source and error fields, never a field of a catch-all
    pair. *)
Theorem pattern_match_has_no_catch_all_fields (text : str) (m : rmatch) :
  re_search pattern text = Some m ->
  ~ In "}"%char (group m 3)
  /\ ~ In nl (group m 3)
  /\ all_fields m =
     [sdklog_operation (group m 2)]
     ++ match re_search namespace_re (group m 3) with
        | Some nm =>
            [sdklog_call "String" (lit "namespace") (strip (group nm 1))]
        | None => []
        end
     ++ match re_search source_re (group m 3) with
        | Some sm => [sdklog_call "String" (lit "source") (strip (group sm 1))]
        | None => []
        end
     ++ match re_search error_re (group m 3) with
        | Some em => [sdklog_error (strip (group em 1))]
        | None => []
        end
  /\ length (all_fields m) <= 4.
Proof.
  intros H.
  assert (Hfields : all_fields m =
     [sdklog_operation (group m 2)]
     ++ match re_search namespace_re (group m 3) with
        | Some nm =>
            [sdklog_call "String" (lit "namespace") (strip (group nm 1))]
        | None => []
        end
     ++ match re_search source_re (group m 3) with
        | Some sm => [sdklog_call "String" (lit "source") (strip (group sm 1))]
        | None => []
        end
     ++ match re_search error_re (group m 3) with
        | Some em => [sdklog_error (strip (group em 1))]
        | None => []
        end).
  { rewrite all_fields_eq, (pattern_has_no_catch_all text m H), app_nil_r.
    reflexivity. }
  split; [exact (pattern_third_group text m H)|].
  split; [|split; [exact Hfields|]].
  - pose proof (pattern_third_group_line text m H) as Hdot.
    rewrite forallb_forall in Hdot. intros Hin.
    specialize (Hdot nl Hin). discriminate.
  - rewrite Hfields.
    destruct (re_search namespace_re (group m 3));
      destruct (re_search source_re (group m 3));
      destruct (re_search error_re (group m 3)); simpl; lia.
Qed.

Lemma pattern_match_has_no_catch_all_fields_witness :
  exists m,
    re_search pattern
      (lit "logger.Fields{Component: " ++ quoted (lit "c") ++ lit ", Operation: "
       ++ quoted (lit "op") ++ lit ", Additional: map[string]interface{}{"
       ++ quoted (lit "count") ++ lit ": 42}})")
    = Some m
    /\ all_fields m = [sdklog_operation (lit "op")]
    /\ length (all_fields m) <= 4.
Proof.
  eexists. split; [vm_compute; reflexivity|].
  match goal with
  | |- all_fields ?m = _ /\ _ =>
      destruct (pattern_match_has_no_catch_all_fields
                  (lit "logger.Fields{Component: " ++ quoted (lit "c")
                   ++ lit ", Operation: " ++ quoted (lit "op")
                   ++ lit ", Additional: map[string]interface{}{"
                   ++ quoted (lit "count") ++ lit ": 42}})")
                  m eq_refl) as (_ & _ & Hfields & Hlen)
  end.
  split; [|exact Hlen]. rewrite Hfields. reflexivity.
Defined.

(** ** The recorded names *)

Lemma In_firstn_le (A : Type) (l : list A) (n m : nat) (x : A) :
  n <= m -> In x (firstn n l) -> In x (firstn m l).
Proof.
  intros Hle Hin. replace m with (n + (m - n)) by lia.
  rewrite firstn_plus. apply in_or_app. left. assumption.
Qed.

Lemma In_firstn_nth (A : Type) (l : list A) (n m : nat) (x : A) :
  nth_error l n = Some x -> n < m -> In x (firstn m l).
Proof.
  intros Hn Hlt. apply (In_firstn_le A l (S n) m); [lia|].
  rewrite (firstn_succ_nth _ _ _ _ Hn). apply in_or_app. right. left.
  reflexivity.
Qed.

(** What a match of the pattern of the recorded names holds. *)
Lemma func_name_re_shape (line : str) (fm : rmatch) :
  re_search func_name_re line = Some fm -> follows_func_parens line (group fm 1).
Proof.
  intros H. apply search_from_sound in H.
  destruct H as (a & c & Hs & _ & _ & H).
  unfold func_name_re in H.
  apply matches_seq_inv in H. destruct H as (c1 & t1 & g1 & -> & L & H).
  apply matches_lit_inv in L. destruct L as [-> ->].
  apply matches_seq_inv in H. destruct H as (sp1 & t2 & g2 & -> & W1 & H).
  apply matches_plus_inv in W1. destruct W1 as (Hs1 & Hs1' & ->).
  apply matches_seq_inv in H. destruct H as (c3 & t3 & g3 & -> & L & H).
  apply matches_lit_inv in L. destruct L as [-> ->].
  apply matches_seq_inv in H. destruct H as (recv & t4 & g4 & -> & R & H).
  apply matches_plus_inv in R. destruct R as (Hr & Hr' & ->).
  apply matches_seq_inv in H. destruct H as (c5 & t5 & g5 & -> & L & H).
  apply matches_lit_inv in L. destruct L as [-> ->].
  apply matches_seq_inv in H. destruct H as (sp2 & t6 & g6 & -> & W2 & H).
  apply matches_plus_inv in W2. destruct W2 as (Hs2 & Hs2' & ->).
  apply matches_group_inv in H. destruct H as (g7 & H & Hg).
  apply matches_plus_inv in H. destruct H as (Hn & Hn' & ->).
  unfold group. rewrite Hg. cbn [lookup_group Nat.eqb].
  exists a, sp1, recv, sp2, (m_rest fm).
  split; [|auto 10]. rewrite Hs, <- !app_assoc. reflexivity.
Qed.

(** X10.  Every name in [logger_declared] stands in a line already scanned
    that starts as a function definition, right after an occurrence of
    [func], whitespace, a text in parentheses and whitespace, and is made
    of word characters.  That need not be the name of the function: after
    a parameter of a function type it is the word that follows it. *)
Theorem recorded_names_follow_func_parens
  (lines : list str) (st : state) (name : str) :
  reachable lines st ->
  In name (logger_declared st) ->
  exists line,
    In line (firstn (i st) lines)
    /\ matched (re_match func_start_re line) = true
    /\ follows_func_parens line name.
Proof.
  intros Hr. revert name.
  induction Hr as [|st st' Hr IH Hs]; intros name Hin; [destruct Hin|].
  destruct Hs as [st st' Hi Hb].
  destruct (index_in_range lines _ Hi) as (line & Hn & _).
  rewrite (body_run lines st line Hn) in Hb. injection Hb as <-.
  cbn [i logger_declared] in *.
  destruct (emitted_advances lines (i st) line (new_lines st) Hi)
    as (Hadv & _).
  assert (Hold : In name (logger_declared st) ->
                 exists line0,
                   In line0 (firstn (fst (emitted lines (i st) line
                                            (new_lines st))) lines)
                   /\ matched (re_match func_start_re line0) = true
                   /\ follows_func_parens line0 name).
  { intros H. destruct (IH name H) as (line0 & H0 & H1 & H2).
    exists line0. split; [|auto].
    eapply In_firstn_le; [|exact H0]. lia. }
  unfold record_function in Hin.
  destruct (matched (re_match func_start_re line)) eqn:Hstart; [|auto].
  destruct (re_search func_name_re line) as [fm|] eqn:Hname; [|auto].
  apply set_add_elim in Hin. destruct Hin as [->|Hin]; [|auto].
  exists line. split; [|split; [assumption|]].
  - eapply In_firstn_nth; [exact Hn | lia].
  - apply func_name_re_shape. assumption.
Qed.

Lemma recorded_names_follow_func_parens_witness :
  exists line,
    In line (firstn 1 [lit "func (w *Watcher) Run() {"; lit "}"])
    /\ matched (re_match func_start_re line) = true
    /\ follows_func_parens line (lit "Run").
Proof.
  apply (recorded_names_follow_func_parens
           [lit "func (w *Watcher) Run() {"; lit "}"]
           (mkState 1 [lit "func (w *Watcher) Run() {"] [lit "Run"])).
  - eapply reach_step; [apply reach_initial|].
    constructor; [simpl; lia | reflexivity].
  - left. reflexivity.
Defined.

(** ** The edge of the window *)

Lemma plain_lines_pass (lines : list str) :
  forall (mid post : list str) (st : state),
    reachable lines st ->
    skipn (i st) lines = mid ++ post ->
    forallb plain_line mid = true ->
    exists st',
      reachable lines st'
      /\ new_lines st' = new_lines st ++ mid
      /\ skipn (i st') lines = post.
Proof.
  induction mid as [|l mid IH]; intros post st Hr Hskip Hplain.
  - exists st. rewrite app_nil_r. auto.
  - simpl in Hskip. apply skipn_head in Hskip. destruct Hskip as [Hn Hskip].
    simpl in Hplain. apply andb_prop in Hplain. destruct Hplain as [Hl Hplain].
    unfold plain_line in Hl. apply andb_prop in Hl. destruct Hl as [Hl Hc].
    apply andb_prop in Hl. destruct Hl as [Hm _].
    apply negb_true_iff in Hm, Hc.
    pose proof (reachable_next _ _ _ Hr Hn) as Hr'.
    unfold emitted in Hr'. rewrite Hm, Hc in Hr'. cbn [fst snd] in Hr'.
    destruct (IH post _ Hr') as (st' & Hr2 & Hnew & Hpost);
      [cbn [i]; assumption | assumption |].
    exists st'. split; [assumption|]. split; [|assumption].
    rewrite Hnew. cbn [new_lines]. rewrite <- app_assoc. reflexivity.
Qed.

(** Ten entries without a declaration hide whatever was emitted before
    them. *)
Lemma not_recently_declared (base done : list str) :
  10 <= length done ->
  existsb (contains declaration) done = false ->
  recently_declared (base ++ done) = false.
Proof.
  intros Hlen Hnone. unfold recently_declared, last_n.
  rewrite skipn_app, length_app.
  rewrite skipn_all2 by lia. cbn [app].
  destruct (existsb (contains declaration)
              (skipn (length base + length done - 10 - length base) done))
    eqn:E; [|reflexivity].
  apply existsb_exists in E. destruct E as (x & Hin & Hx).
  assert (Hin' : In x done).
  { rewrite <- (firstn_skipn
                  (length base + length done - 10 - length base) done).
    apply in_or_app. right. assumption. }
  assert (existsb (contains declaration) done = true)
    by (apply existsb_exists; eauto).
  congruence.
Qed.

(** X11.  A declaration is forgotten after ten entries: a logging call
    that comes after ten or more emitted entries and plain lines without a
    declaration gets a declaration line, whatever was emitted before them,
    also a declaration for the same function. *)
Theorem declaration_is_forgotten_after_ten
  (content : str) (st : state) (base done mid post : list str) (line : str) :
  reachable (split nl content) st ->
  new_lines st = base ++ done ->
  existsb (contains declaration) done = false ->
  skipn (i st) (split nl content) = mid ++ line :: post ->
  forallb plain_line mid = true ->
  10 <= length done + length mid ->
  contains fields_marker line = false ->
  matched (re_match logcall_re line) = true ->
  exists more,
    migrate_logger_fields content
    = Done (join [nl]
              (base ++ done ++ mid ++ declaration_line :: line :: more)).
Proof.
  intros Hr Hnew Hdone Hskip Hplain Hlen Hm Hc.
  destruct (plain_lines_pass _ mid (line :: post) st Hr Hskip Hplain)
    as (st' & Hr' & Hnew' & Hskip').
  apply skipn_head in Hskip'. destruct Hskip' as [Hn _].
  pose proof (reachable_next _ _ _ Hr' Hn) as Hr2.
  unfold emitted in Hr2. rewrite Hm, Hc in Hr2. cbn [fst snd] in Hr2.
  assert (Hrec : recently_declared (new_lines st') = false).
  { rewrite Hnew', Hnew, <- app_assoc. apply not_recently_declared.
    - rewrite length_app. assumption.
    - rewrite existsb_app, Hdone. cbn [orb].
      destruct (existsb (contains declaration) mid) eqn:E; [|reflexivity].
      apply existsb_exists in E. destruct E as (x & Hin & Hx).
      rewrite forallb_forall in Hplain. specialize (Hplain x Hin).
      unfold plain_line in Hplain. rewrite Hx in Hplain.
      rewrite andb_false_r in Hplain. discriminate. }
  rewrite Hrec in Hr2. cbn [negb] in Hr2.
  destruct (migrate_from_reachable _ _ Hr2) as (more & Hout).
  exists more. rewrite Hout. cbn [new_lines].
  rewrite Hnew', Hnew, <- !app_assoc. reflexivity.
Qed.

Lemma declaration_is_forgotten_after_ten_witness :
  exists more,
    migrate_logger_fields
      (join [nl] ([tab :: lit "logger.Info(a)"] ++ repeat (lit "x") 9
                  ++ [tab :: lit "logger.Warn(b)"]))
    = Done (join [nl]
              ([declaration_line] ++ [tab :: lit "logger.Info(a)"]
               ++ repeat (lit "x") 9
               ++ declaration_line :: (tab :: lit "logger.Warn(b)") :: more)).
Proof.
  apply (declaration_is_forgotten_after_ten
           (join [nl] ([tab :: lit "logger.Info(a)"] ++ repeat (lit "x") 9
                       ++ [tab :: lit "logger.Warn(b)"]))
           (mkState 1 [declaration_line; tab :: lit "logger.Info(a)"]
              (empty_set str))
           [declaration_line] [tab :: lit "logger.Info(a)"]
           (repeat (lit "x") 9) [] (tab :: lit "logger.Warn(b)")).
  - eapply reach_step; [apply reach_initial|].
    constructor; [vm_compute; lia | reflexivity].
  - reflexivity.
  - reflexivity.
  - reflexivity.
  - reflexivity.
  - simpl. lia.
  - reflexivity.
  - reflexivity.
Defined.

(** ** Documents without marker lines *)

Section WithoutMarkers.

Lemma add_declarations_app (a b : list str) :
  fold_left append_line (a ++ b) [] = fold_left append_line b (add_declarations a).
Proof. apply fold_left_app. Qed.

Lemma add_declarations_snoc (a : list str) (line : str) :
  add_declarations (a ++ [line]) = append_line (add_declarations a) line.
Proof. unfold add_declarations. rewrite fold_left_app. reflexivity. Qed.

(** Without marker lines the scan is the fold [add_declarations]. *)
Lemma migrate_without_marker (content : str) :
  existsb (contains fields_marker) (split nl content) = false ->
  migrate_logger_fields content
  = Done (join [nl] (add_declarations (split nl content))).
Proof.
  intros Hplain. unfold migrate_logger_fields.
  set (lines := split nl content) in *.
  destruct (main_loop_rule lines
              (fun st => i st <= length lines
                         /\ new_lines st = add_declarations (firstn (i st) lines)))
    with (fuel := length lines) (st := initial) as (st & Hr & (Hi & Hp) & Hl).
  - intros st st' (Hi & Hp) Hlt Hb.
    destruct (index_in_range lines _ Hlt) as (line & Hn & _).
    rewrite (body_run lines st line Hn) in Hb. injection Hb as <-.
    assert (Hm : contains fields_marker line = false).
    { destruct (contains fields_marker line) eqn:E; [|reflexivity].
      assert (existsb (contains fields_marker) lines = true).
      { apply existsb_exists. exists line. split; [|assumption].
        eapply nth_error_In. eassumption. }
      congruence. }
    unfold emitted. rewrite Hm. cbn [i new_lines fst snd]. split; [lia|].
    rewrite (firstn_succ_nth _ _ _ _ Hn), add_declarations_snoc, <- Hp.
    reflexivity.
  - split; [unfold initial; cbn [i]; lia | reflexivity].
  - unfold initial; cbn [i]; lia.
  - rewrite Hr. cbn [bind]. rewrite Hp, firstn_all2 by lia. reflexivity.
Qed.

Lemma declaration_line_facts :
  matched (re_match logcall_re declaration_line) = false
  /\ contains fields_marker declaration_line = false
  /\ contains declaration declaration_line = true
  /\ ~ In nl declaration_line.
Proof.
  repeat split; try (vm_compute; reflexivity).
  vm_compute. intuition discriminate.
Qed.

Lemma recently_declared_last (out : list str) :
  recently_declared (out ++ [declaration_line]) = true.
Proof. apply (recently_declared_after out []). simpl. lia. Qed.

(** The lines that the fold emits are emitted again, as they are, by a
    second fold over them. *)
Lemma add_declarations_stable (lines : list str) :
  add_declarations (add_declarations lines) = add_declarations lines.
Proof.
  induction lines as [|line lines IH] using rev_ind; [reflexivity|].
  rewrite add_declarations_snoc.
  set (X := add_declarations lines) in *.
  destruct declaration_line_facts as (Hd1 & _ & _ & _).
  unfold append_line.
  destruct (matched (re_match logcall_re line)) eqn:Hc.
  - destruct (recently_declared X) eqn:Hrec; cbn [negb].
    + rewrite add_declarations_snoc, IH. unfold append_line.
      rewrite Hc, Hrec. reflexivity.
    + rewrite !add_declarations_snoc, IH. unfold append_line.
      rewrite Hd1, Hc, recently_declared_last. reflexivity.
  - rewrite add_declarations_snoc, IH. unfold append_line.
    rewrite Hc. reflexivity.
Qed.

Lemma add_declarations_lines (lines : list str) :
  Forall (fun l => ~ In nl l) lines ->
  existsb (contains fields_marker) lines = false ->
  Forall (fun l => ~ In nl l) (add_declarations lines)
  /\ existsb (contains fields_marker) (add_declarations lines) = false
  /\ (lines <> [] -> add_declarations lines <> []).
Proof.
  destruct declaration_line_facts as (_ & Hd2 & _ & Hd4).
  induction lines as [|line lines IH] using rev_ind; intros Hall Hm.
  - repeat split; [constructor | congruence].
  - apply Forall_app in Hall. destruct Hall as [Hall Hline].
    inversion Hline as [|? ? Hline' _]; subst.
    rewrite existsb_app in Hm. apply orb_false_iff in Hm.
    destruct Hm as [Hm Hm']. simpl in Hm'. rewrite orb_false_r in Hm'.
    destruct (IH Hall Hm) as (IH1 & IH2 & _).
    rewrite add_declarations_snoc. unfold append_line.
    split; [|split].
    + apply Forall_app. split; [|repeat constructor; assumption].
      destruct (matched (re_match logcall_re line)); [|assumption].
      destruct (negb (recently_declared (add_declarations lines)));
        [|assumption].
      apply Forall_app. split; [assumption | repeat constructor; assumption].
    + rewrite existsb_app. simpl. rewrite Hm', orb_false_r.
      destruct (matched (re_match logcall_re line)); [|assumption].
      destruct (negb (recently_declared (add_declarations lines)));
        [|assumption].
      rewrite existsb_app, IH2. cbn [existsb orb]. rewrite Hd2. reflexivity.
    + intros _ E. apply app_eq_nil in E. destruct E as [_ E]. discriminate.
Qed.

End WithoutMarkers.

(** X12.  On a document without marker lines the scan is a fold over the
    lines that only inserts declaration lines, and a second pass changes
    nothing: the result of the scan is a fixed point of the scan. *)
Theorem idempotent_without_marker (content : str) :
  existsb (contains fields_marker) (split nl content) = false ->
  exists out,
    migrate_logger_fields content = Done out
    /\ out = join [nl] (add_declarations (split nl content))
    /\ migrate_logger_fields out = Done out.
Proof.
  intros Hplain. eexists. split; [apply migrate_without_marker; assumption|].
  split; [reflexivity|].
  destruct (add_declarations_lines (split nl content) (split_lines content)
              Hplain) as (Hall & Hm & Hne).
  specialize (Hne (split_nonempty nl content)).
  assert (Hsplit : split nl (join [nl] (add_declarations (split nl content)))
                   = add_declarations (split nl content)).
  { rewrite split_join by assumption. apply concat_split_lines. assumption. }
  rewrite migrate_without_marker; rewrite Hsplit; [|assumption].
  rewrite add_declarations_stable. reflexivity.
Qed.

Lemma idempotent_without_marker_witness :
  exists out,
    migrate_logger_fields
      (join [nl] [lit "func f() {"; tab :: lit "logger.Info(a)"; lit "}"])
    = Done out
    /\ out = join [nl]
               (add_declarations
                  (split nl
                     (join [nl] [lit "func f() {"; tab :: lit "logger.Info(a)";
                                 lit "}"])))
    /\ migrate_logger_fields out = Done out.
Proof.
  apply (idempotent_without_marker
           (join [nl] [lit "func f() {"; tab :: lit "logger.Info(a)"; lit "}"])).
  reflexivity.
Defined.

(** * Blocks in the text of the result *)

Lemma join_nl_concat (x : str) (l : list str) :
  join [nl] (x :: l) = x ++ concat (map (cons nl) l).
Proof.
  revert x. induction l as [|y l IH]; intros x.
  - simpl. rewrite app_nil_r. reflexivity.
  - rewrite join_cons2, IH. reflexivity.
Qed.

Lemma join_snoc (entries : list str) (e : str) :
  join [nl] (entries ++ [e])
  = match entries with
    | [] => []
    | _ :: _ => join [nl] entries ++ [nl]
    end ++ e.
Proof.
  destruct entries as [|x entries]; [reflexivity|].
  rewrite join_app by discriminate. rewrite <- app_assoc. reflexivity.
Qed.

(** The entry of a block, letter by letter. *)
Lemma todo_block_text (first : str) (rest : list str) :
  todo_block (first :: rest)
  = lit "// TODO: Replace logger.Fields block"
    ++ nl :: first ++ concat (map (cons nl) rest).
Proof. unfold todo_block. rewrite join_nl_concat. reflexivity. Qed.

Lemma join_entry (entries more : list str) (e : str) :
  exists b,
    join [nl] (entries ++ e :: more)
    = match entries with
      | [] => []
      | _ :: _ => join [nl] entries ++ [nl]
      end ++ e ++ b.
Proof.
  destruct more as [|y more].
  - exists []. rewrite app_nil_r. apply join_snoc.
  - exists ([nl] ++ join [nl] (y :: more)).
    change (entries ++ e :: y :: more) with (entries ++ [e] ++ y :: more).
    rewrite app_assoc, join_app; [|destruct entries; discriminate|discriminate].
    rewrite join_snoc, <- !app_assoc. reflexivity.
Qed.

(** C2, as the code has it.  A block with balanced delimiters that the scan
    comes to, that is, whose first line is not taken by the capture of an
    earlier block, is in the result as the marker comment, a newline and
    the lines of the block as they were in the document, each after a
    newline. *)
Theorem balanced_block_is_kept_verbatim
  (content : str) (st : state) (pre : list str) (first : str)
  (rest post : list str) :
  reachable (split nl content) st ->
  split nl content = pre ++ (first :: rest) ++ post ->
  i st = length pre ->
  balanced_block (first :: rest) = true ->
  exists a b out,
    migrate_logger_fields content = Done out
    /\ out = a ++ (lit "// TODO: Replace logger.Fields block"
                   ++ nl :: first ++ concat (map (cons nl) rest)) ++ b
    /\ contains
         (lit "// TODO: Replace logger.Fields block"
          ++ nl :: first ++ concat (map (cons nl) rest)) out = true.
Proof.
  intros Hr Hl Hi Hb.
  simpl in Hb. apply andb_prop in Hb. destruct Hb as [Hm Hc].
  pose proof (body_on_block pre rest post first st Hi Hm
                (closes_open_run _ _ post Hc)) as Hbody.
  rewrite <- Hl in Hbody.
  assert (Hr' : reachable (split nl content)
                  (mkState (length pre + length (first :: rest))
                     (new_lines st ++ [todo_block (first :: rest)])
                     (record_function first (logger_declared st)))).
  { eapply reach_step; [exact Hr|]. constructor; [|exact Hbody].
    rewrite Hl, Hi, !length_app. simpl. lia. }
  destruct (migrate_from_reachable _ _ Hr') as (more & Hout).
  cbn [new_lines] in Hout. rewrite <- app_assoc in Hout. simpl app in Hout.
  destruct (join_middle [nl] (todo_block (first :: rest)) (new_lines st) more)
    as (a & b & Hj).
  exists a, b. eexists. split; [exact Hout|].
  rewrite Hj, todo_block_text. split; [reflexivity|].
  apply contains_app.
Qed.

Lemma balanced_block_is_kept_verbatim_witness :
  exists a b out,
    migrate_logger_fields
      (lit "x" ++ nl :: lit "f(logger.Fields{" ++ nl :: lit "  A: {},"
       ++ nl :: lit "})" ++ nl :: lit "y")
    = Done out
    /\ out = a ++ (lit "// TODO: Replace logger.Fields block"
                   ++ nl :: lit "f(logger.Fields{"
                   ++ concat (map (cons nl) [lit "  A: {},"; lit "})"])) ++ b
    /\ contains
         (lit "// TODO: Replace logger.Fields block"
          ++ nl :: lit "f(logger.Fields{"
          ++ concat (map (cons nl) [lit "  A: {},"; lit "})"])) out = true.
Proof.
  apply (balanced_block_is_kept_verbatim
           (lit "x" ++ nl :: lit "f(logger.Fields{" ++ nl :: lit "  A: {},"
            ++ nl :: lit "})" ++ nl :: lit "y")
           (mkState 1 [lit "x"] (empty_set str)) [lit "x"]
           (lit "f(logger.Fields{") [lit "  A: {},"; lit "})"] [lit "y"]).
  - eapply reach_step; [apply reach_initial|].
    constructor; [vm_compute; lia | reflexivity].
  - reflexivity.
  - reflexivity.
  - reflexivity.
Defined.

(** C2, as stated, fails.  The second line of this document is a block with
    balanced delimiters, but it lies inside the block that the first line
    opens: it is emitted with that block, and no marker comment stands
    before it. *)
Lemma inner_block_gets_no_marker :
  let l1 := lit "a(logger.Fields{" in
  let l2 := lit "b(logger.Fields{})" in
  let l3 := lit "})" in
  let content := l1 ++ nl :: l2 ++ nl :: l3 in
  split nl content = [l1] ++ [l2] ++ [l3]
  /\ balanced_block [l2] = true
  /\ migrate_logger_fields content
     = Done (lit "// TODO: Replace logger.Fields block"
             ++ nl :: l1 ++ nl :: l2 ++ nl :: l3)
  /\ contains (lit "// TODO: Replace logger.Fields block" ++ nl :: l2)
       (lit "// TODO: Replace logger.Fields block"
        ++ nl :: l1 ++ nl :: l2 ++ nl :: l3) = false.
Proof. cbv zeta. repeat split; vm_compute; reflexivity. Qed.

(** C4.  The scan ends without raising on every document, whatever fuel
    beyond the number of lines it is given; and a block that is still open
    at the end of the document takes all the remaining lines: the text of
    the result ends with the marker comment and, each after a newline, the
    first line of the block and all the lines after it, and these are the
    last lines of the result. *)
Theorem total_and_open_block_takes_the_rest (content : str) :
  (exists st,
     (forall fuel, length (split nl content) <= fuel ->
        main_loop fuel (split nl content) initial = Done st)
     /\ migrate_logger_fields content = Done (join [nl] (new_lines st)))
  /\
  (forall (st : state) (pre : list str) (first : str) (rest : list str),
     reachable (split nl content) st ->
     split nl content = pre ++ first :: rest ->
     i st = length pre ->
     unbalanced_block (first :: rest) = true ->
     exists out earlier,
       migrate_logger_fields content = Done out
       /\ out = match new_lines st with
                | [] => []
                | _ :: _ => join [nl] (new_lines st) ++ [nl]
                end
                ++ lit "// TODO: Replace logger.Fields block"
                ++ nl :: first ++ concat (map (cons nl) rest)
       /\ split nl out
          = earlier
            ++ lit "// TODO: Replace logger.Fields block" :: first :: rest).
Proof.
  split.
  - destruct (reachable_prefix (split nl content) initial
                (reach_initial _)) as (st & Hm & _).
    exists st. split.
    + intros fuel Hf. rewrite <- Hm. apply main_loop_fuel;
        unfold initial; cbn [i]; lia.
    + unfold migrate_logger_fields. rewrite Hm. reflexivity.
  - intros st pre first rest Hr Hl Hi Hb.
    simpl in Hb. apply andb_prop in Hb. destruct Hb as [Hm Hc].
    assert (Hk : open_run (brace_delta first) (rest ++ []) = length rest).
    { rewrite app_nil_r. apply never_closes_open_run. assumption. }
    pose proof (body_on_block pre rest [] first st Hi Hm Hk) as Hbody.
    rewrite app_nil_r, <- Hl in Hbody.
    assert (Hout : migrate_logger_fields content
                   = Done (join [nl]
                             (new_lines st ++ [todo_block (first :: rest)]))).
    { apply (migrate_at_end content
               (mkState (length pre + length (first :: rest))
                  (new_lines st ++ [todo_block (first :: rest)])
                  (record_function first (logger_declared st)))).
      - eapply reach_step; [exact Hr|]. constructor; [|exact Hbody].
        rewrite Hl, Hi, !length_app. simpl. lia.
      - cbn [i]. rewrite Hl, length_app. reflexivity. }
    eexists. exists (concat (map (split nl) (new_lines st))).
    split; [exact Hout|]. split.
    + rewrite join_snoc, todo_block_text. reflexivity.
    + rewrite split_join by (destruct (new_lines st); discriminate).
      rewrite map_app, concat_app. cbn [map concat]. rewrite app_nil_r.
      rewrite split_todo_block; [reflexivity | discriminate |].
      pose proof (split_lines content) as Hall. rewrite Hl in Hall.
      apply Forall_app in Hall. tauto.
Qed.

Lemma total_and_open_block_takes_the_rest_witness :
  exists out earlier,
    migrate_logger_fields
      (lit "a" ++ nl :: lit "f(logger.Fields{" ++ nl :: lit "  A: 1,"
       ++ nl :: lit "b")
    = Done out
    /\ out = (lit "a" ++ [nl])
             ++ lit "// TODO: Replace logger.Fields block"
             ++ nl :: lit "f(logger.Fields{"
             ++ concat (map (cons nl) [lit "  A: 1,"; lit "b"])
    /\ split nl out
       = earlier
         ++ lit "// TODO: Replace logger.Fields block"
            :: lit "f(logger.Fields{" :: [lit "  A: 1,"; lit "b"].
Proof.
  apply (proj2 (total_and_open_block_takes_the_rest
                  (lit "a" ++ nl :: lit "f(logger.Fields{"
                   ++ nl :: lit "  A: 1," ++ nl :: lit "b"))
           (mkState 1 [lit "a"] (empty_set str)) [lit "a"]
           (lit "f(logger.Fields{") [lit "  A: 1,"; lit "b"]).
  - eapply reach_step; [apply reach_initial|].
    constructor; [vm_compute; lia | reflexivity].
  - reflexivity.
  - reflexivity.
  - reflexivity.
Defined.

(** X4.  Every marker line that the scan comes to opens a block, also when
    the line is a logging call: the result holds the marker comment and,
    each after a newline, the marker line and the lines of the block, right
    after the text emitted so far; the scan goes on after the block; and
    the block either closes on its last line or is still open at the end of
    the document. *)
Theorem marker_line_opens_a_block
  (content : str) (st : state) (first : str) :
  reachable (split nl content) st ->
  nth_error (split nl content) (i st) = Some first ->
  contains (lit "logger.Fields{") first = true ->
  exists rest post b,
    skipn (i st) (split nl content) = (first :: rest) ++ post
    /\ (balanced_block (first :: rest) = true
        \/ (unbalanced_block (first :: rest) = true /\ post = []))
    /\ reachable (split nl content)
         (mkState (i st + length (first :: rest))
            (new_lines st
             ++ [lit "// TODO: Replace logger.Fields block"
                 ++ nl :: first ++ concat (map (cons nl) rest)])
            (record_function first (logger_declared st)))
    /\ migrate_logger_fields content
       = Done (match new_lines st with
               | [] => []
               | _ :: _ => join [nl] (new_lines st) ++ [nl]
               end
               ++ (lit "// TODO: Replace logger.Fields block"
                   ++ nl :: first ++ concat (map (cons nl) rest))
               ++ b).
Proof.
  intros Hr Hn Hm. change (lit "logger.Fields{") with fields_marker in Hm.
  pose proof (reachable_next _ _ _ Hr Hn) as Hr'.
  unfold emitted in Hr'. rewrite Hm in Hr'. cbv zeta in Hr'.
  cbn [fst snd] in Hr'.
  set (tail := skipn (S (i st)) (split nl content)) in *.
  set (k := open_run (brace_delta first) tail) in *.
  rewrite todo_block_text in Hr'.
  destruct (migrate_from_reachable _ _ Hr') as (more & Hout).
  cbn [new_lines] in Hout. rewrite <- app_assoc in Hout.
  destruct (join_entry (new_lines st) more
              (lit "// TODO: Replace logger.Fields block"
               ++ nl :: first ++ concat (map (cons nl) (firstn k tail))))
    as (b & Hb).
  exists (firstn k tail), (skipn k tail), b.
  assert (Hk : length (firstn k tail) = k).
  { rewrite length_firstn. pose proof (open_run_le (brace_delta first) tail).
    unfold k. lia. }
  split; [|split; [|split]].
  - rewrite (skipn_nth _ _ _ Hn). fold tail. simpl.
    rewrite firstn_skipn. reflexivity.
  - unfold balanced_block, unbalanced_block. rewrite Hm. cbn [andb].
    destruct (open_run_ends (brace_delta first) tail) as [H|[H1 H2]].
    + left. assumption.
    + right. fold k in H2. rewrite H2, firstn_all, skipn_all. auto.
  - cbn [length]. rewrite Hk.
    replace (i st + S k) with (S (i st) + k) by lia. exact Hr'.
  - rewrite Hout. cbn [app] in Hb. cbn [app]. rewrite Hb. reflexivity.
Qed.

Lemma marker_line_opens_a_block_witness :
  exists rest post b,
    skipn 0
      (split nl
         (tab :: lit "logger.Info(m, logger.Fields{" ++ nl :: lit "})"
          ++ nl :: lit "z"))
    = ((tab :: lit "logger.Info(m, logger.Fields{") :: rest) ++ post
    /\ (balanced_block ((tab :: lit "logger.Info(m, logger.Fields{") :: rest)
        = true
        \/ (unbalanced_block
              ((tab :: lit "logger.Info(m, logger.Fields{") :: rest) = true
            /\ post = []))
    /\ reachable
         (split nl
            (tab :: lit "logger.Info(m, logger.Fields{" ++ nl :: lit "})"
             ++ nl :: lit "z"))
         (mkState
            (0 + length ((tab :: lit "logger.Info(m, logger.Fields{") :: rest))
            ([] ++ [lit "// TODO: Replace logger.Fields block"
                    ++ nl :: (tab :: lit "logger.Info(m, logger.Fields{")
                    ++ concat (map (cons nl) rest)])
            (record_function (tab :: lit "logger.Info(m, logger.Fields{")
               (empty_set str)))
    /\ migrate_logger_fields
         (tab :: lit "logger.Info(m, logger.Fields{" ++ nl :: lit "})"
          ++ nl :: lit "z")
       = Done ([] ++ (lit "// TODO: Replace logger.Fields block"
                      ++ nl :: (tab :: lit "logger.Info(m, logger.Fields{")
                      ++ concat (map (cons nl) rest))
               ++ b).
Proof.
  apply (marker_line_opens_a_block
           (tab :: lit "logger.Info(m, logger.Fields{" ++ nl :: lit "})"
            ++ nl :: lit "z")
           initial (tab :: lit "logger.Info(m, logger.Fields{")).
  - apply reach_initial.
  - reflexivity.
  - reflexivity.
Defined.

(** * Pass after pass *)

(** X3.  A document with a marker line is changed by every pass, however
    many came before: after any number of passes the text still holds a
    marker line, and one more pass gives a text with more lines that holds
    a marker line again. *)
Theorem marker_makes_every_pass_grow (content : str) :
  existsb (contains (lit "logger.Fields{")) (split nl content) = true ->
  forall n,
    exists out out',
      passes n content = Done out
      /\ passes (S n) content = Done out'
      /\ migrate_logger_fields out = Done out'
      /\ existsb (contains (lit "logger.Fields{")) (split nl out) = true
      /\ existsb (contains (lit "logger.Fields{")) (split nl out') = true
      /\ length (split nl out) < length (split nl out')
      /\ out' <> out.
Proof.
  intros Hm.
  assert (Hstep : forall out,
            existsb (contains fields_marker) (split nl out) = true ->
            exists out',
              migrate_logger_fields out = Done out'
              /\ existsb (contains fields_marker) (split nl out') = true
              /\ length (split nl out) < length (split nl out')).
  { intros out Ho.
    destruct (scan_summary out) as (out' & Hout & _ & _ & Hgrow & Hsub).
    exists out'. split; [assumption|]. split; [|auto].
    apply existsb_exists in Ho. destruct Ho as (line & Hin & Hline).
    apply existsb_exists. exists line. split; [|assumption].
    eapply subseq_In; eassumption. }
  assert (Hn : forall n, exists out,
            passes n content = Done out
            /\ existsb (contains fields_marker) (split nl out) = true).
  { induction n as [|n (out & Hp & Ho)].
    - exists content. split; [reflexivity | exact Hm].
    - destruct (Hstep out Ho) as (out' & Hout & Ho' & _).
      exists out'. split; [|assumption]. simpl. rewrite Hp. exact Hout. }
  intros n. destruct (Hn n) as (out & Hp & Ho).
  destruct (Hstep out Ho) as (out' & Hout & Ho' & Hlen).
  exists out, out'. repeat split; try assumption.
  - simpl. rewrite Hp. exact Hout.
  - intros E. rewrite E in Hlen. lia.
Qed.

Lemma marker_makes_every_pass_grow_witness :
  exists out out',
    passes 2 (lit "f(logger.Fields{})") = Done out
    /\ passes 3 (lit "f(logger.Fields{})") = Done out'
    /\ migrate_logger_fields out = Done out'
    /\ existsb (contains (lit "logger.Fields{")) (split nl out) = true
    /\ existsb (contains (lit "logger.Fields{")) (split nl out') = true
    /\ length (split nl out) < length (split nl out')
    /\ out' <> out.
Proof.
  apply (marker_makes_every_pass_grow (lit "f(logger.Fields{})")).
  reflexivity.
Defined.

(** * The fields of a recognized block *)

Section AttributeSearch.










End AttributeSearch.




(** C6, on the code.  The catch-all map with the pairs count: 42,
    ratio: 3.14 and name: x (quoted) stands in a block that [pattern]
    recognizes; the third group of the match ends before the first closing
    brace, the search for the map finds nothing in it, and the result is the
    operation field alone: none of the three fields of the pairs.  Apart
    from that, a value that only starts with digits, a point and a digit is
    taken for a float. *)
Theorem catch_all_pairs_are_lost_behind_pattern :
  let text :=
    lit "logger.Fields{Component: " ++ "034"%char :: lit "cfg"
    ++ "034"%char :: lit ", Operation: " ++ "034"%char :: lit "load"
    ++ "034"%char :: lit ", Additional: map[string]interface{}{"
    ++ "034"%char :: lit "count" ++ "034"%char :: lit ": 42, "
    ++ "034"%char :: lit "ratio" ++ "034"%char :: lit ": 3.14, "
    ++ "034"%char :: lit "name" ++ "034"%char :: lit ": "
    ++ "034"%char :: lit "x" ++ "034"%char :: lit "}}" in
  (exists m,
     re_search pattern text = Some m
     /\ group m 3 = lit ", Additional: map[string]interface{"
     /\ re_search additional_re (group m 3) = None
     /\ all_fields m
        = [lit "sdklog.Operation(" ++ "034"%char :: lit "load"
           ++ "034"%char :: lit ")"]
     /\ replace_fields m
        = lit "sdklog.Operation(" ++ "034"%char :: lit "load"
          ++ "034"%char :: lit ")")
  /\ kv_field (lit "v", lit "1.2.3")
     = lit "sdklog.Float64(" ++ "034"%char :: lit "v"
       ++ "034"%char :: lit ", 1.2.3)".
Proof.
  cbv zeta. split; [|vm_compute; reflexivity].
  eexists. split; [vm_compute; reflexivity|].
  repeat split; vm_compute; reflexivity.
Qed.
